(** * Keyboard navigation of the Tree and Menu widgets

    A shallow embedding of [Tree/TreeItem.jsx], [Tree/TreeGroup.jsx] and
    [Menu/index.jsx].  The handlers of these components read the rendered
    document (siblings, parents, nested lists, attributes) and move the input
    focus; the group component additionally owns one boolean of state.  The
    document is modelled as a rose tree of elements, a node reference as the
    path that leads to it, and [null] as [None]. *)

From Stdlib Require Import String List Bool Arith ZArith Lia.
From stdpp Require Import base option list.
Import ListNotations.
Local Open Scope string_scope.
Local Open Scope list_scope.
Local Open Scope nat_scope.
Set Warnings "-register-all".

(** ** The document *)

Module Dom.

(** A reference to a node: the child indices from the node up to the root,
    innermost first.  [[]] is the root element of the document. *)
Definition path : Type := list nat.

(** What [node[key]._debugOwner.stateNode] is for an element, as far as
    [moveTo] can tell the cases apart. *)
Inductive owner : Type :=
| OwnerNull            (* created outside of any component, or by a function
                          component: [_debugOwner], or its [stateNode], is null *)
| OwnerOther           (* no React instance, or a component without a [focus] method *)
| OwnerTreeItem        (* the <li> returned by TreeItem.render *)
| OwnerTreeGroup       (* the <ol> returned by TreeGroup.render *)
| OwnerTreeGroupError  (* <h1>/<pre> of a TreeGroup in its error state: no ref was set *)
| OwnerTree            (* the <ol role='tree'> of the Tree root *)
| OwnerElsewhere (lands : option path).
    (* rendered by a component outside the tree that has a [focus] method of
       its own (a Menu, a SubMenu, a Modal): [lands] is the element that
       method focuses, [None] when it leaves the focus where it is *)

(** An element with the attributes the handlers read.  Text nodes carry no
    attribute that is read and are left out of [childNodes]. *)
Inductive node : Type :=
| Element (tagName : string) (id : string) (role : option string)
          (ariaExpanded : option string) (own : owner) (childNodes : list node).

Definition tagName (n : node) : string := let 'Element t _ _ _ _ _ := n in t.
Definition id (n : node) : string := let 'Element _ i _ _ _ _ := n in i.
Definition role (n : node) : option string := let 'Element _ _ r _ _ _ := n in r.
Definition ariaExpanded (n : node) : option string := let 'Element _ _ _ a _ _ := n in a.
Definition own (n : node) : owner := let 'Element _ _ _ _ o _ := n in o.
Definition childNodes (n : node) : list node := let 'Element _ _ _ _ _ k := n in k.

Fixpoint at_path (d : node) (p : path) : option node :=
  match p with
  | [] => Some d
  | i :: q => at_path d q ≫= λ n, childNodes n !! i
  end.

Definition exists_at (d : node) (p : path) : option path :=
  match at_path d p with Some _ => Some p | None => None end.

(** [parentNode] of an element.  The parent of the root element of the
    model is a node outside of it: the Document node, or the detached
    container a test mounts the tree into.  That node is not null, but its
    own [parentNode] and [nextSibling] are, so every property chain that
    runs through it ends in null, and [None] stands for it in such chains.
    Where the parent itself is handed to [moveTo], see
    [Focus.moveTo_parentNode]. *)
Definition parentNode (p : path) : option path :=
  match p with
  | [] => None
  | _ :: q => Some q
  end.

Definition nextSibling (d : node) (p : path) : option path :=
  match p with
  | [] => None
  | i :: q => exists_at d (S i :: q)
  end.

Definition previousSibling (p : path) : option path :=
  match p with
  | S i :: q => Some (i :: q)
  | _ => None
  end.

Definition firstChild (d : node) (p : path) : option path := exists_at d (0 :: p).

(** The descendants of a node in document order, each with its path
    relative to the node. *)
Section Descendants.
Variable descendants : node → list (path * node).

Fixpoint descendants_from (i : nat) (l : list node) : list (path * node) :=
  match l with
  | [] => []
  | k :: l' =>
      ([i], k) :: map (λ x, (x.1 ++ [i], x.2)) (descendants k)
        ++ descendants_from (S i) l'
  end.
End Descendants.

Fixpoint descendants (n : node) : list (path * node) :=
  match n with
  | Element _ _ _ _ _ kids => descendants_from descendants 0 kids
  end.

(** [this.getElementsByTagName(tag)] for the element at [p]: paths are
    made absolute. *)
Definition getElementsByTagName (d : node) (p : path) (tag : string)
  : list (path * node) :=
  match at_path d p with
  | None => []
  | Some n =>
      map (λ x, (x.1 ++ p, x.2))
          (filter (λ x, String.eqb (tagName x.2) tag = true) (descendants n))
  end.

(** [getAttribute(name) === value] *)
Definition attr_is (a : option string) (value : string) : bool :=
  match a with
  | Some v => String.eqb v value
  | None => false
  end.

(** [a.contains(b)]: [b] is [a] or lies below it. *)
Definition contains (a b : path) : bool :=
  bool_decide (drop (length b - length a) b = a).

(** [document.getElementById(i)] *)
Definition getElementById (d : node) (i : string) : option path :=
  if String.eqb (id d) i then Some []
  else fst <$> head (filter (λ x, String.eqb (id x.2) i = true) (descendants d)).

End Dom.

(** ** Moving the focus *)

Module Focus.
Import Dom.

(** What a handler does to [document.activeElement]. *)
Inductive outcome : Type :=
| Focus (p : path)   (* a component of the tree called focus() on its element at [p] *)
| Stay               (* the handler returned without focusing anything *)
| Throw              (* the handler threw a TypeError before focusing anything *)
| Elsewhere (lands : option path).
    (* the handler called the [focus] method of a component outside the
       tree, which focuses [lands], or leaves the focus where it is *)

(** [moveTo(node)], the same private method in TreeItem and TreeGroup:
    [Object.keys(node)] throws on null; otherwise the owner component of
    the node, found through its React instance, is asked to focus.  The
    components of the tree focus the element itself. *)
Definition moveTo (d : node) (target : option path) : outcome :=
  match target with
  | None => Throw
  | Some p =>
      match at_path d p with
      | None => Throw
      | Some n =>
          match own n with
          | OwnerNull => Throw
          | OwnerOther => Stay
          | OwnerTreeGroupError => Throw
          | OwnerTreeItem | OwnerTreeGroup | OwnerTree => Focus p
          | OwnerElsewhere lands => Elsewhere lands
          end
      end
  end.

(** [moveTo(element.parentNode)].  The parent of the root element (the
    Document node, or the container of a test) is not null and carries no
    React instance, so the loop over its keys finds nothing to call. *)
Definition moveTo_parentNode (d : node) (element : path) : outcome :=
  match element with
  | [] => Stay
  | _ :: parent => moveTo d (Some parent)
  end.

(** [document.activeElement] after a handler that ran while [current]
    had the focus. *)
Definition activeElement_after (current : path) (o : outcome) : path :=
  match o with
  | Focus p => p
  | Elsewhere (Some p) => p
  | Stay | Throw | Elsewhere None => current
  end.

End Focus.

(** ** TreeGroup *)

Module TreeGroup.
Import Dom Focus.

(** [child.type] of a child element. *)
Inductive child_type : Type :=
| FunctionType (name : string)   (* a component: [typeof type === 'function'] *)
| HostType (tag : string)        (* 'li', 'ol', ... *)
| NoType.                        (* a string or number child: [type] is undefined *)

(** The props of a group whose children all have a type that can be read:
    [props_children] holds those types, in order. *)
Record props : Type := Props {
  props_id : string;
  props_expanded : option string;
  props_children : list child_type;
}.

(** What [React.Children.forEach] hands to its callback for one child. *)
Inductive child : Type :=
| ChildOf (type : child_type)
    (* an element of a component or of a host tag, or a text: [child.type]
       can be read, and printed in an error message *)
| NullChild
    (* true or false, or null or undefined among other children: the
       callback receives null, and reading [type] off it throws.  A sole
       child that is null or undefined is no child at all: [forEach] returns
       at once, as for the empty list *)
| SymbolChild.
    (* an element whose type is a Symbol, such as a Fragment: it is no
       function, and building the error message throws *)

(** One entry of [this.error]: the offending type and [index + 1]. *)
Record message : Type := InvalidChild { bad_type : child_type; position : nat }.

(** The fields of an instance.  [error] is [[]] where the source leaves
    [this.error] undefined; once defined it is never empty. *)
Record instance : Type := Instance {
  error : list message;
  expandable : bool;
  state_expanded : bool;
}.

(** [typeof type === 'function'] *)
Definition typeof_function (type : child_type) : bool :=
  match type with
  | FunctionType _ => true
  | HostType _ | NoType => false
  end.

(** [type.name === name]; a tag name or [undefined] has no such name. *)
Definition name_is (type : child_type) (name : string) : bool :=
  match type with
  | FunctionType n => String.eqb n name
  | HostType _ | NoType => false
  end.

(** The children the constructor counts as items. *)
Definition is_TreeItem (type : child_type) : bool :=
  typeof_function type && name_is type "TreeItem".

(** The [React.Children.forEach] loop of the constructor, with its two
    accumulators [this.error] and [items], over children whose type can be
    read and printed.  [forEach] and [construct] below are the loop and the
    constructor over every kind of child. *)
Fixpoint validate (index : nat) (cs : list child_type)
         (err : list message) (items : nat) : list message * nat :=
  match cs with
  | [] => (err, items)
  | type :: cs' =>
      if negb (typeof_function type) || negb (name_is type "TreeItem")
      then validate (S index) cs' (err ++ [InvalidChild type (index + 1)]) items
      else validate (S index) cs' err (items + 1)
  end.

(** The constructor, for children whose types can be read: it returns.
    See [construct] for the other children. *)
Definition constructor (p : props) : instance :=
  let '(err, items) := validate 0 (props_children p) [] 0 in
  {| error := err;
     expandable := (1 <? items)%nat;
     state_expanded := negb (attr_is (props_expanded p) "false" || (items =? 0)%nat) |}.

(** The loop over whatever children there are: [None] is the TypeError
    the callback throws at the first child that is null or has a Symbol for
    its type. *)
Fixpoint forEach (index : nat) (children : list child)
         (err : list message) (items : nat) : option (list message * nat) :=
  match children with
  | [] => Some (err, items)
  | NullChild :: _ => None
  | SymbolChild :: _ => None
  | ChildOf type :: rest =>
      if negb (typeof_function type) || negb (name_is type "TreeItem")
      then forEach (S index) rest (err ++ [InvalidChild type (index + 1)]) items
      else forEach (S index) rest err (items + 1)
  end.

(** The constructor over whatever children there are: [None] when it
    throws. *)
Definition construct (id : string) (hint : option string) (children : list child)
  : option instance :=
  match forEach 0 children [] 0 with
  | Some (err, items) =>
      Some {| error := err;
              expandable := (1 <? items)%nat;
              state_expanded := negb (attr_is hint "false" || (items =? 0)%nat) |}
  | None => None
  end.

(** The types of the children, when each of them has one that can be read
    and printed. *)
Fixpoint readable (children : list child) : option (list child_type) :=
  match children with
  | [] => Some []
  | ChildOf type :: rest =>
      match readable rest with
      | Some types => Some (type :: types)
      | None => None
      end
  | NullChild :: _ | SymbolChild :: _ => None
  end.

(** [get expanded()] *)
Definition expanded (this : instance) : bool := state_expanded this.

Definition setState (this : instance) (e : bool) : instance :=
  {| error := error this; expandable := expandable this; state_expanded := e |}.

(** [collapse]: [element] is the path of [this.element].  The ref is set
    on the <ol>, which [render] returns only for a group without errors; in
    the error state [this.element] is undefined and [this.element.focus()]
    throws before [setState] is reached. *)
Definition collapse (this : instance) (element : path) : instance * outcome :=
  if expandable this && expanded this
  then
    match error this with
    | [] => (setState this false, Focus element)
    | _ :: _ => (this, Throw)
    end
  else (this, Stay).

Definition expand (this : instance) : instance :=
  if expandable this && negb (expanded this)
  then setState this true
  else this.

Definition next (d : node) (element : path) : outcome :=
  moveTo d (parentNode element ≫= nextSibling d).

Definition previous (d : node) (element : path) : outcome :=
  moveTo_parentNode d element.

Definition stepInto (d : node) (element : path) : outcome :=
  moveTo d (firstChild d element).

Definition toggle (this : instance) (element : path) : instance * outcome :=
  if expanded this
  then collapse this element
  else (expand this, Stay).

(** [onKeyDown] through [this.shortcuts]. *)
Definition onKeyDown (this : instance) (d : node) (element : path) (key : string)
  : instance * outcome :=
  if String.eqb key "ArrowDown" then (this, next d element)
  else if String.eqb key "ArrowLeft" then collapse this element
  else if String.eqb key "ArrowRight" then (expand this, stepInto d element)
  else if String.eqb key "ArrowUp" then (this, previous d element)
  else if String.eqb key "Enter" then toggle this element
  else (this, Stay).

Definition onClick (this : instance) (element : path) : instance * outcome :=
  toggle this element.

(** The [aria-expanded] attribute of the <ol>.  [render] spreads the
    props onto the element and overwrites aria-expanded only for a group
    that is expandable or expanded; otherwise the attribute is whatever the
    caller [passed] as a prop of that name, if anything. *)
Definition aria_expanded (passed : option string) (this : instance) : option string :=
  if expandable this || expanded this
  then Some (if expanded this then "true" else "false")
  else passed.

(** [render], given the id and the aria-expanded the caller passed among
    the props, and the rendered children.  [role] is set after the spread
    and cannot be overridden. *)
Definition render (id : string) (passed : option string) (this : instance)
           (kids : list node) : list node :=
  match error this with
  | _ :: _ =>
      [ Element "h1" "" None None OwnerTreeGroupError [];
        Element "pre" "" None None OwnerTreeGroupError [] ]
  | [] =>
      [ Element "ol" id (Some "group") (aria_expanded passed this)
                OwnerTreeGroup kids ]
  end.

End TreeGroup.

(** ** TreeItem *)

Module TreeItem.
Import Dom Focus.

(** [subtree.length ? subtree.item(0).getAttribute(name) === value : false] *)
Definition first_attr_is (subtree : list (path * node))
           (attr : node → option string) (value : string) : bool :=
  match subtree with
  | [] => false
  | item0 :: _ => attr_is (attr item0.2) value
  end.

(** [subtree.item(0)] *)
Definition item0 (subtree : list (path * node)) : option path :=
  fst <$> head subtree.

Definition next (d : node) (element : path) : outcome :=
  let el := nextSibling d element in
  let subtree := getElementsByTagName d element "ol" in
  let group := first_attr_is subtree role "group" in
  let isExpanded := first_attr_is subtree ariaExpanded "true" in
  if bool_decide (is_Some el) && (negb group || isExpanded) then moveTo d el
  else if group then moveTo d (item0 subtree)
  else moveTo d ((parentNode element ≫= parentNode) ≫= nextSibling d).

Definition previous (d : node) (element : path) : outcome :=
  match previousSibling element with
  | Some el => moveTo d (Some el)
  | None => moveTo_parentNode d element
  end.

Definition stepInto (d : node) (element : path) : outcome :=
  let el := nextSibling d element in
  let subtree := getElementsByTagName d element "ol" in
  let group := first_attr_is subtree role "group" in
  if group then moveTo d (item0 subtree)
  else if bool_decide (is_Some el) then moveTo d el
  else moveTo d ((parentNode element ≫= parentNode) ≫= nextSibling d).

(** [onKeyDown] through [this.shortcuts]. *)
Definition onKeyDown (d : node) (element : path) (key : string) : outcome :=
  if String.eqb key "ArrowDown" then next d element
  else if String.eqb key "ArrowLeft" then previous d element
  else if String.eqb key "ArrowRight" then stepInto d element
  else if String.eqb key "ArrowUp" then previous d element
  else Stay.

(** [render], given the rendered children. *)
Definition render (id : string) (kids : list node) : node :=
  Element "li" id (Some "treeitem") None OwnerTreeItem kids.

End TreeItem.

(** ** Mounting a tree of elements *)

Module Mount.
Import Dom.

(** The children a caller writes, arrays flattened as [React.Children]
    does: tree items, tree groups (with the [expanded] hint and the
    [aria-expanded] prop, if passed), host elements such as <span> or <li>,
    fragments, texts, and the children that render nothing (see
    [TreeGroup.NullChild]). *)
Inductive element : Type :=
| TreeItemEl (id : string) (children : list element)
| TreeGroupEl (id : string) (expanded : option string) (aria_expanded : option string)
              (children : list element)
| HostEl (tag : string) (id : string) (children : list element)
| FragmentEl (children : list element)
| TextEl
| NullEl.

(** What the constructor of a group is handed for a child. *)
Definition child_of (e : element) : TreeGroup.child :=
  match e with
  | TreeItemEl _ _ => TreeGroup.ChildOf (TreeGroup.FunctionType "TreeItem")
  | TreeGroupEl _ _ _ _ => TreeGroup.ChildOf (TreeGroup.FunctionType "TreeGroup")
  | HostEl tag _ _ => TreeGroup.ChildOf (TreeGroup.HostType tag)
  | FragmentEl _ => TreeGroup.SymbolChild
  | TextEl => TreeGroup.ChildOf TreeGroup.NoType
  | NullEl => TreeGroup.NullChild
  end.

(** Constructs every component and renders it.  A group renders to two
    nodes in its error state, hence the list; a text renders to a text
    node, which [childNodes] leaves out.  Host elements are taken to be
    written outside of any component, as in the tests.  A group whose
    constructor throws renders nothing; the exception then ends the
    mounting of the whole tree, see [throws] and [mounted]. *)
Fixpoint mount (e : element) : list node :=
  match e with
  | TreeItemEl id kids => [TreeItem.render id (flat_map mount kids)]
  | TreeGroupEl id expanded passed kids =>
      match TreeGroup.construct id expanded (map child_of kids) with
      | Some this => TreeGroup.render id passed this (flat_map mount kids)
      | None => []
      end
  | HostEl tag id kids => [Element tag id None None OwnerNull (flat_map mount kids)]
  | FragmentEl kids => flat_map mount kids
  | TextEl => []
  | NullEl => []
  end.

(** Whether mounting throws: some group that gets constructed has a child
    its constructor throws on.  The children of a group in its error state
    are not rendered, so nothing below such a group is constructed. *)
Fixpoint throws (e : element) : bool :=
  match e with
  | TreeItemEl _ kids => existsb throws kids
  | TreeGroupEl id expanded _ kids =>
      match TreeGroup.construct id expanded (map child_of kids) with
      | Some this =>
          match TreeGroup.error this with
          | [] => existsb throws kids
          | _ :: _ => false
          end
      | None => true
      end
  | HostEl _ _ kids => existsb throws kids
  | FragmentEl kids => existsb throws kids
  | TextEl => false
  | NullEl => false
  end.

(** What mounting produces, when it does not throw. *)
Definition mounted (e : element) : option (list node) :=
  if throws e then None else Some (mount e).

End Mount.

(** ** The tree of the repository's tests *)

Module Fixture.
Import Dom Mount.

Definition span : element := HostEl "span" "" [].

(** The children of <Tree id="tree"> in the [beforeEach] of the tests. *)
Definition items : list element :=
  [ TreeItemEl "ti1"
      [ span;
        TreeGroupEl "" (Some "true") None
          [ TreeItemEl "tg1-ti1"
              [ span;
                TreeGroupEl "" None None
                  [ TreeItemEl "tg1-ti1-tg1-ti1" [span];
                    TreeItemEl "tg1-ti1-tg1-ti2"
                      [ span;
                        TreeGroupEl "" None None
                          [ TreeItemEl "tg1-ti1-tg1-ti2-tg1-ti1" [span] ] ] ] ];
            TreeItemEl "tg1-ti2"
              [ span;
                TreeGroupEl "tg1-ti2-tg1" (Some "false") None
                  [ TreeItemEl "tg1-ti2-tg1-ti1" [span];
                    TreeItemEl "tg1-ti2-tg1-ti2"
                      [ span;
                        TreeGroupEl "" None None
                          [ TreeItemEl "tg1-ti2-tg1-ti2-tg1-ti1" [span] ] ] ] ];
            TreeItemEl "tg1-ti3" [span];
            TreeItemEl "tg1-ti4" [span] ] ];
    TreeItemEl "ti2" [span] ].

(** Modelled from the spec: the Tree root component ([Tree/index.jsx] is
    not among the sources).  Its tests show an <ol role='tree'> that
    carries the id, reports aria-expanded 'true' for this tree and takes
    the focus when an item moves to it. *)
Definition tree : node :=
  Element "ol" "tree" (Some "tree") (Some "true") OwnerTree (flat_map mount items).

(** A page that holds the tree in a container of its own, followed by the
    <nav> of a Menu, whose [focus] method focuses the button of its first
    entry. *)
Definition page : node :=
  Element "body" "" None None OwnerNull
    [ Element "div" "container" None None OwnerNull [tree];
      Element "nav" "" None None (OwnerElsewhere (Some [0; 0; 0; 1]))
        [ Element "ul" "menu" None None OwnerOther
            [ Element "li" "" None None OwnerOther
                [ Element "button" "first-entry" None None OwnerOther [] ] ] ] ].

(** The [id] of the element a handler leaves the focus on. *)
Definition focused_id (current : path) (o : Focus.outcome) : option string :=
  id <$> at_path tree (Focus.activeElement_after current o).

(** Paths of the items and groups the tests address. *)
Definition ti1 : path := [0].
Definition ti2 : path := [1].
Definition ti1_group : path := [1; 0].
Definition tg1_ti1 : path := [0; 1; 0].
Definition tg1_ti1_tg1 : path := [1; 0; 1; 0].
Definition tg1_ti2 : path := [1; 1; 0].
Definition tg1_ti3 : path := [2; 1; 0].
Definition tg1_ti4 : path := [3; 1; 0].
Definition tg1_ti2_tg1 : path := [1; 1; 1; 0].
Definition tg1_ti2_tg1_ti1 : path := [0; 1; 1; 1; 0].
Definition tg1_ti1_tg1_ti1 : path := [0; 1; 0; 1; 0].
Definition tg1_ti1_tg1_ti2 : path := [1; 1; 0; 1; 0].
Definition tg1_ti1_tg1_ti2_tg1_ti1 : path := [0; 1; 1; 1; 0; 1; 0].

(** The groups the TreeGroup tests construct on their own. *)
Definition TreeItem_type : TreeGroup.child_type := TreeGroup.FunctionType "TreeItem".

(** The instance behind the group of the first item, as mounted. *)
Definition ti1_group_instance : TreeGroup.instance :=
  TreeGroup.constructor
    (TreeGroup.Props "" (Some "true")
       [TreeItem_type; TreeItem_type; TreeItem_type; TreeItem_type]).

Definition empty_group : TreeGroup.props := TreeGroup.Props "" None [].
Definition single_group : TreeGroup.props :=
  TreeGroup.Props "" (Some "false") [TreeItem_type].
Definition focus_group : TreeGroup.props :=
  TreeGroup.Props "tg-focus" None [TreeItem_type; TreeItem_type].


(** A well-formed outer group around an item whose own group holds a raw
    <li>, the malformed child of the tests one level further down. *)
Definition nested_invalid : element :=
  TreeGroupEl "outer" None None
    [ TreeItemEl "a" [ span; TreeGroupEl "inner" None None [HostEl "li" "" []] ];
      TreeItemEl "b" [ span ] ].

End Fixture.

(** ** Menu and SubMenu *)

Module Menu.
Import Dom Focus.

(** [get items()]: the child nodes of the list element of the menu. *)
Definition items (d : node) (id : string) : list path :=
  match getElementById d id with
  | Some list =>
      match at_path d list with
      | Some n => imap (λ i _, i :: list) (childNodes n)
      | None => []
      end
  | None => []
  end.

(** The [while] loop of [get activeIndex()], entered with [i = n - 1];
    [None] is the [undefined] a loop that finds nothing falls through to. *)
Fixpoint activeIndex_loop (list : list path) (activeElement : path) (n : nat)
  : option Z :=
  match n with
  | O => None
  | S i =>
      match list !! i with
      | Some item =>
          if contains item activeElement then Some (Z.of_nat i)
          else activeIndex_loop list activeElement i
      | None => None
      end
  end.

Definition activeIndex (d : node) (id : string) (activeElement : path) : option Z :=
  let list := items d id in
  activeIndex_loop list activeElement (length list).

(** [items[i]] for an integer [i]. *)
Definition item_at (list : list path) (i : Z) : option path :=
  if (i <? 0)%Z then None else list !! Z.to_nat i.

(** [item.querySelectorAll('a, button')] *)
Definition querySelectorAll_a_button (d : node) (item : path) : list (path * node) :=
  match at_path d item with
  | None => []
  | Some n =>
      map (λ x, (x.1 ++ item, x.2))
          (filter (λ x, String.eqb (tagName x.2) "a" || String.eqb (tagName x.2) "button" = true)
                  (descendants n))
  end.

(** [target.item(0).focus()] on the controls of [items[i]]. *)
Definition focus_control (d : node) (item : option path) : outcome :=
  match item with
  | None => Throw
  | Some it =>
      match querySelectorAll_a_button d it with
      | [] => Throw
      | content0 :: _ => Focus content0.1
      end
  end.

Definition first (d : node) (id : string) : outcome :=
  let items := items d id in
  if (0 <? length items)%nat then focus_control d (item_at items 0) else Stay.

Definition last (d : node) (id : string) : outcome :=
  let items := items d id in
  if (0 <? length items)%nat
  then focus_control d (item_at items (Z.of_nat (length items) - 1))
  else Stay.

Definition select (d : node) (id : string) (ndx : Z) : outcome :=
  let lastIndex := (Z.of_nat (length (items d id)) - 1)%Z in
  let i :=
    if (ndx <? 0)%Z then lastIndex
    else if (ndx >? lastIndex)%Z then 0%Z
    else ndx in
  focus_control d (item_at (items d id) i).

Definition next (d : node) (id : string) (activeElement : path) : outcome :=
  match activeIndex d id activeElement with
  | Some i => select d id (i + 1)
  | None => Stay
  end.

Definition prev (d : node) (id : string) (activeElement : path) : outcome :=
  match activeIndex d id activeElement with
  | Some i => select d id (i - 1)
  | None => Stay
  end.

(** The arrow, Home and End cases of the [switch] in [onKeyDown]; [None]
    stands for the cases that are not modelled (Escape and the type-ahead
    search of the default case). *)
Definition onKeyDown (d : node) (id : string) (activeElement : path) (key : string)
  : option outcome :=
  if String.eqb key "ArrowDown" || String.eqb key "ArrowRight"
  then Some (next d id activeElement)
  else if String.eqb key "ArrowLeft" || String.eqb key "ArrowUp"
  then Some (prev d id activeElement)
  else if String.eqb key "Home" then Some (first d id)
  else if String.eqb key "End" then Some (last d id)
  else None.

End Menu.

(** SubMenu repeats [items], [activeIndex], [first], [last], [next], [prev]
    and [select] of Menu word for word; only its key handler differs. *)
Module SubMenu.
Import Dom Focus.

Definition first := Menu.first.
Definition next := Menu.next.
Definition prev := Menu.prev.

(** [get controller()] *)
Definition controller (d : node) (id : string) : option path :=
  getElementById d (String.append id "-controller").

(** The ArrowDown and ArrowUp cases of [onKeyDown]: the new value of
    [state.expanded] and the focus move.  [target] is the focused element
    the key event was sent to. *)
Definition onArrowDown (expanded : bool) (d : node) (id : string) (target : path)
  : bool * outcome :=
  (true,
   if bool_decide (Some target = controller d id)
   then first d id
   else next d id target).

Definition onArrowUp (expanded : bool) (d : node) (id : string) (target : path)
  : bool * outcome :=
  (expanded,
   if bool_decide (Some target ≠ controller d id)
   then prev d id target
   else Stay).

End SubMenu.

(** A menu of three entries, the second one a submenu, as [Menu.render] and
    [SubMenu.render] lay them out. *)
Module MenuFixture.
Import Dom.

Definition a (id : string) : node := Element "a" id None None OwnerOther [].
Definition button (id : string) : node := Element "button" id None None OwnerOther [].
Definition li (kids : list node) : node := Element "li" "" None None OwnerOther kids.

Definition menu : node :=
  Element "nav" "" None None OwnerOther
    [ Element "h2" "spacebears-label" None None OwnerOther [];
      Element "ul" "spacebears" None None OwnerOther
        [ li [button "fullscreen"];
          li [ button "sub-controller";
               Element "ul" "sub" None None OwnerOther
                 [ li [a "spacebear1"]; li [a "spacebear2"] ] ];
          li [a "about"] ] ].

(** A menu whose first entry holds neither a link nor a button. *)
Definition bare_menu : node :=
  Element "nav" "" None None OwnerOther
    [ Element "ul" "bare" None None OwnerOther
        [ li []; li [a "only"] ] ].

Definition only : path := [0; 1; 0].

Definition fullscreen : path := [0; 0; 1].
Definition sub_controller : path := [0; 1; 1].
Definition spacebear1 : path := [0; 0; 1; 1; 1].
Definition spacebear2 : path := [0; 1; 1; 1; 1].
Definition about : path := [0; 2; 1].

End MenuFixture.

(** ** The vocabulary of the specification, read off the document *)

Module Spec.
Import Dom Focus.

(** childGroup(item): the group an item owns, found the way [next] and
    [stepInto] find it: the first nested <ol>, when its role is 'group'. *)
Definition childGroup (d : node) (item : path) : option path :=
  match getElementsByTagName d item "ol" with
  | first :: _ => if attr_is (role first.2) "group" then Some first.1 else None
  | [] => None
  end.

(** isExpanded(group), as the document reports it. *)
Definition isExpanded (d : node) (group : path) : bool :=
  match at_path d group with
  | Some n => attr_is (ariaExpanded n) "true"
  | None => false
  end.

(** itemCount(group): a rendered group has one child node per item. *)
Definition itemCount (d : node) (group : path) : nat :=
  match at_path d group with
  | Some n => length (childNodes n)
  | None => 0
  end.

(** isExpandable(G) == (itemCount(G) >= 2) *)
Definition isExpandable (d : node) (group : path) : bool :=
  (2 <=? itemCount d group)%nat.

Definition firstItem (group : path) : path := 0 :: group.

(** The Item that owns the group an item is in. *)
Definition owningItem (item : path) : option path :=
  parentNode item ≫= parentNode.

Definition has_role (d : node) (p : path) (r : string) : bool :=
  match at_path d p with
  | Some n => attr_is (role n) r
  | None => false
  end.

(** The elements [moveTo] moves the focus to: those whose owner component
    has a [focus] method and holds a ref to the element. *)
Definition takes_focus (d : node) (p : path) : bool :=
  match at_path d p with
  | Some n =>
      match own n with
      | OwnerTreeItem | OwnerTreeGroup | OwnerTree => true
      | OwnerNull | OwnerOther | OwnerTreeGroupError | OwnerElsewhere _ => false
      end
  | None => false
  end.

(** The handler handed the focus to a component outside the tree. *)
Definition leaves_tree (o : outcome) : bool :=
  match o with
  | Elsewhere _ => true
  | Focus _ | Stay | Throw => false
  end.

Definition is_item (d : node) (p : path) : bool := has_role d p "treeitem".
Definition is_group (d : node) (p : path) : bool := has_role d p "group".
Definition is_root (d : node) (p : path) : bool := has_role d p "tree".

(** Step-Down as the specification words it: into an expanded child
    group, else to the next sibling. *)
Definition step_down (d : node) (item : path) : Prop :=
  let o := TreeItem.onKeyDown d item "ArrowDown" in
  match childGroup d item with
  | Some g =>
      if isExpanded d g then o = Focus (firstItem g)
      else ∀ s, nextSibling d item = Some s → o = Focus s
  | None => ∀ s, nextSibling d item = Some s → o = Focus s
  end.

(** The next sibling of the nearest ancestor Item that has one. *)
Fixpoint climb (d : node) (item : path) : option path :=
  match item with
  | _ :: _ :: owner =>
      match nextSibling d owner with
      | Some s => Some s
      | None => climb d owner
      end
  | _ => None
  end.

Definition usable_child (d : node) (item : path) : bool :=
  match childGroup d item with
  | Some g => isExpanded d g
  | None => false
  end.

(** The fallback of Step-Down as the specification words it. *)
Definition step_down_fallback (d : node) (item : path) : Prop :=
  nextSibling d item = None →
  usable_child d item = false →
  activeElement_after item (TreeItem.onKeyDown d item "ArrowDown")
  = default item (climb d item).

(** Where Step-Into leaves the focus, as the specification words it. *)
Definition step_into (d : node) (item : path) : Prop :=
  match childGroup d item with
  | Some g => TreeItem.onKeyDown d item "ArrowRight" = Focus (firstItem g)
  | None =>
      TreeItem.onKeyDown d item "ArrowRight" = TreeItem.onKeyDown d item "ArrowDown"
  end.

(** Step-Up as the specification words it: previous sibling, else the
    owning Item. *)
Definition step_up_target (item : path) : option path :=
  match previousSibling item with
  | Some s => Some s
  | None => owningItem item
  end.

(** Where Collapse-left leaves the focus, as the specification words it. *)
Definition collapse_left (d : node) (item : path) : Prop :=
  let after := activeElement_after item (TreeItem.onKeyDown d item "ArrowLeft") in
  match childGroup d item with
  | Some g =>
      if isExpandable d g && isExpanded d g then after = item
      else after = default item (step_up_target item)
  | None => after = default item (step_up_target item)
  end.

(** The focus invariant for one key pressed on an Item. *)
Definition focus_invariant (d : node) (item : path) (key : string) : Prop :=
  let after := activeElement_after item (TreeItem.onKeyDown d item key) in
  (is_item d after || is_root d after) && negb (is_group d after) = true.

(** The number of items the constructor of a group counts. *)
Definition items_of (p : TreeGroup.props) : nat :=
  length (filter (λ t, TreeGroup.is_TreeItem t = true) (TreeGroup.props_children p)).

(** "isExpanded reports true unconditionally" for a group of at most one
    item. *)
Definition small_group_expanded (p : TreeGroup.props) : Prop :=
  items_of p ≤ 1 → TreeGroup.expanded (TreeGroup.constructor p) = true.

(** The instances a group can be in: as constructed, and after any
    sequence of collapse, expand and toggle. *)
Inductive reachable (p : TreeGroup.props) : TreeGroup.instance → Prop :=
| reach_constructor : reachable p (TreeGroup.constructor p)
| reach_collapse this element :
    reachable p this → reachable p (TreeGroup.collapse this element).1
| reach_expand this :
    reachable p this → reachable p (TreeGroup.expand this)
| reach_toggle this element :
    reachable p this → reachable p (TreeGroup.toggle this element).1.

(** A child of a group that is a TreeItem. *)
Definition item_shape (k : Mount.element) : bool :=
  match Mount.child_of k with
  | TreeGroup.ChildOf type => TreeGroup.is_TreeItem type
  | TreeGroup.NullChild | TreeGroup.SymbolChild => false
  end.

(** A group, at any depth, with a child that is not a TreeItem. *)
Fixpoint malformed (e : Mount.element) : bool :=
  match e with
  | Mount.TreeItemEl _ kids => existsb malformed kids
  | Mount.TreeGroupEl _ _ _ kids =>
      existsb (λ k, negb (item_shape k)) kids || existsb malformed kids
  | Mount.HostEl _ _ kids => existsb malformed kids
  | Mount.FragmentEl kids => existsb malformed kids
  | Mount.TextEl | Mount.NullEl => false
  end.

(** The types among the children of a group that its constructor
    rejects. *)
Definition invalid_children (types : list TreeGroup.child_type)
  : list TreeGroup.child_type :=
  filter (λ t, TreeGroup.is_TreeItem t = false) types.

(** The visible error state a group renders. *)
Definition error_state : list node :=
  [ Element "h1" "" None None OwnerTreeGroupError [];
    Element "pre" "" None None OwnerTreeGroupError [] ].

(** Construction validation as the specification words it: a malformed
    input yields the error state and nothing of the tree. *)
Definition construction_fails (e : Mount.element) : Prop :=
  malformed e = true → Mount.mount e = error_state.

(** Wrap-around in a menu as the specification words it, for every menu
    that has entries: ArrowDown with the focus in the last entry moves it
    into the first one, and ArrowUp with the focus in the first entry moves
    it into the last one. *)
Definition menu_wraps (d : node) (id : string) : Prop :=
  ∀ first_item last_item,
    Menu.items d id !! 0 = Some first_item →
    Menu.items d id !! (length (Menu.items d id) - 1) = Some last_item →
    (∀ a, Menu.activeIndex d id a = Some (Z.of_nat (length (Menu.items d id)) - 1)%Z →
          ∃ c, Menu.onKeyDown d id a "ArrowDown" = Some (Focus c)
               ∧ contains first_item c = true)
    ∧ (∀ a, Menu.activeIndex d id a = Some 0%Z →
            ∃ c, Menu.onKeyDown d id a "ArrowUp" = Some (Focus c)
                 ∧ contains last_item c = true).

(** Every element rendered by a tree component carries the role of that
    component. *)
Fixpoint roles_agree (n : node) : bool :=
  match n with
  | Element _ _ r _ o kids =>
      match o with
      | OwnerTreeItem => attr_is r "treeitem"
      | OwnerTreeGroup => attr_is r "group"
      | OwnerTree => attr_is r "tree"
      | OwnerNull | OwnerOther | OwnerTreeGroupError | OwnerElsewhere _ => true
      end && forallb roles_agree kids
  end.

End Spec.

(** ** Further parts of Menu, SubMenu and MenuItem *)

Module MenuItem.
Import Dom.

(** [props.label], [props.href] and [props.current] of a menu item;
    [this.action] is [props.action || noop] and therefore always set. *)
Record props : Type := Props {
  label : string;
  href : string;
  current : bool;
}.

(** A string is truthy when it is not empty. *)
Definition truthy (s : string) : bool := negb (String.eqb s "").

(** The [aria-current] value computed at the top of [render]. *)
Definition aria_current (p : props) : option string :=
  if current p
  then if truthy (href p) then Some "page" else Some "item"
  else None.

(** [render]: a link for an entry with an href, a button otherwise, nothing
    (undefined) for an entry without a label. *)
Definition render (p : props) : option node :=
  if truthy (label p) && truthy (href p)
  then Some (Element "li" "" None None OwnerOther
               [Element "a" "" None None OwnerOther []])
  else if truthy (label p)
  then Some (Element "li" "" None None OwnerOther
               [Element "button" "" None None OwnerOther []])
  else None.

End MenuItem.

Module MenuParts.
Import Dom Focus.

(** [focus() { this.first(); }] of Menu. *)
Definition focus (d : node) (id : string) : outcome := Menu.first d id.

(** The index [select] computes from [ndx] for a list of [len] entries. *)
Definition selected_index (len : nat) (ndx : Z) : Z :=
  if (ndx <? 0)%Z then (Z.of_nat len - 1)%Z
  else if (ndx >? Z.of_nat len - 1)%Z then 0%Z
  else ndx.

(** Every entry of the menu holds a link or a button. *)
Definition entries_have_controls (d : node) (id : string) : Prop :=
  ∀ item, item ∈ Menu.items d id → Menu.querySelectorAll_a_button d item ≠ [].

(** [document.activeElement] after [n] calls of the [next] method of the
    menu [id] in a row, starting with the focus on [a].  (Which method a
    key press runs depends on the component the focused element belongs
    to; this is the method alone.) *)
Fixpoint after_next (d : node) (id : string) (n : nat) (a : path) : path :=
  match n with
  | O => a
  | S n' => after_next d id n' (activeElement_after a (Menu.next d id a))
  end.

Section Search.

(** [item.textContent] of an entry, which the document model does not
    carry, and [new RegExp(`^${match}`, 'i').test(text)]. *)
Variable textContent : path → string.
Variable test : string → string → bool.

(** The [while] loop of [search], entered at [i]: the index of the first
    entry from [i] on whose text the pattern matches.  The loop runs while
    [i < this.items.length]; [fuel] bounds the number of rounds. *)
Fixpoint search_loop (items : list path) (pattern : string) (fuel i : nat)
  : option nat :=
  match fuel with
  | O => None
  | S fuel' =>
      match items !! i with
      | Some item =>
          if test pattern (textContent item) then Some i
          else search_loop items pattern fuel' (S i)
      | None => None
      end
  end.

(** [this.activeIndex || 0] *)
Definition start_index (d : node) (id : string) (activeElement : path) : nat :=
  match Menu.activeIndex d id activeElement with
  | Some i => Z.to_nat i
  | None => 0
  end.

(** [search(key)]: the new [this.buffer] (the empty string also stands for
    an undefined buffer) and the focus move. *)
Definition search (buffer : string) (d : node) (id : string)
           (activeElement : path) (key : string) : string * outcome :=
  let pattern := String.append buffer key in
  let items := Menu.items d id in
  match search_loop items pattern (length items) (start_index d id activeElement) with
  | Some i => (pattern, Menu.select d id (Z.of_nat i))
  | None => ("", Stay)
  end.

End Search.

End MenuParts.

Module SubMenuParts.
Import Dom Focus.

Definition last := Menu.last.

(** [focus]: to the controller button, when there is one. *)
Definition focus (d : node) (id : string) : outcome :=
  match SubMenu.controller d id with
  | Some btn => Focus btn
  | None => Stay
  end.

(** The remaining navigation cases of [onKeyDown].  [None] is a key the
    handler lets bubble: neither [stopPropagation] nor anything else is
    called.  Otherwise the new [state.expanded] and the focus move. *)
Definition onArrowLeft (expanded : bool) (d : node) (id : string) (target : path)
  : option (bool * outcome) :=
  if bool_decide (Some target = SubMenu.controller d id) then None
  else
    match Menu.activeIndex d id target with
    | Some i =>
        if (i =? 0)%Z then Some (expanded, focus d id)
        else Some (expanded, SubMenu.prev d id target)
    | None => Some (expanded, focus d id)
    end.

Definition onArrowRight (expanded : bool) (d : node) (id : string) (target : path)
  : option (bool * outcome) :=
  if bool_decide (Some target = SubMenu.controller d id) then None
  else if bool_decide (Menu.activeIndex d id target
                       ≠ Some (Z.of_nat (length (Menu.items d id)) - 1)%Z)
  then Some (expanded, SubMenu.next d id target)
  else Some (expanded, focus d id).

Definition onHome (expanded : bool) (d : node) (id : string) : bool * outcome :=
  (true, SubMenu.first d id).

Definition onEnd (expanded : bool) (d : node) (id : string) : bool * outcome :=
  (true, last d id).

Definition onEscape (expanded : bool) (d : node) (id : string) : bool * outcome :=
  (false, focus d id).

(** [toggle], bound to a click on the controller. *)
Definition toggle (expanded : bool) : bool := negb expanded.

(** [render], given [this.children] rendered: the controller button and
    the list.  Nothing is rendered without a label, or without children
    ([React.Children.map] of no children is not an array; [None] here). *)
Definition render (id label : string) (children : option (list node)) : option node :=
  match children with
  | Some kids =>
      if MenuItem.truthy label
      then Some (Element "li" "" None None OwnerOther
                   [ Element "button" (String.append id "-controller") None None
                             OwnerOther [];
                     Element "ul" id None None OwnerOther kids ])
      else None
  | None => None
  end.

End SubMenuParts.

(** ** The shape of a mounted tree *)

Module Shape.
Import Dom.

(** An element rendered by TreeItem: <li role='treeitem'>. *)
Definition is_li_treeitem (n : node) : bool :=
  match n with
  | Element t _ r _ OwnerTreeItem _ => String.eqb t "li" && attr_is r "treeitem"
  | _ => false
  end.

(** Every <ol> rendered by a TreeGroup has tree items, and nothing else,
    as its child nodes. *)
Fixpoint groups_hold_items (n : node) : bool :=
  match n with
  | Element _ _ _ _ o kids =>
      match o with
      | OwnerTreeGroup => forallb is_li_treeitem kids
      | _ => true
      end && forallb groups_hold_items kids
  end.

End Shape.

(** The texts of the entries of the menu above, and a pattern test for
    patterns of letters and digits: a prefix match that ignores case. *)
Module MenuTexts.
Import Dom.

Definition textContent (p : path) : string :=
  match p with
  | [0; 1] => "Use full screen"
  | [1; 1] => "Space BearsSpace Bear 1Space Bear 2"
  | [2; 1] => "About"
  | _ => ""
  end.

Definition lower (c : Ascii.ascii) : Ascii.ascii :=
  let n := Ascii.nat_of_ascii c in
  if (65 <=? n) && (n <=? 90) then Ascii.ascii_of_nat (n + 32) else c.

Fixpoint test (pattern text : string) : bool :=
  match pattern, text with
  | EmptyString, _ => true
  | String c pattern', String c' text' =>
      Ascii.eqb (lower c) (lower c') && test pattern' text'
  | String _ _, EmptyString => false
  end.

End MenuTexts.

(** Case analysis on the comparisons of [selected_index]. *)
Ltac selected_index_cases :=
  unfold MenuParts.selected_index;
  repeat match goal with
         | |- context [(?a >? ?b)%Z] => rewrite (Z.gtb_ltb a b)
         end;
  repeat match goal with
         | |- context [(?a <? ?b)%Z] =>
             lazymatch a with
             | context [if _ then _ else _] => fail
             | _ =>
                 lazymatch b with
                 | context [if _ then _ else _] => fail
                 | _ => destruct (Z.ltb_spec a b)
                 end
             end
         end;
  try lia.

Import Dom Focus.

(** * Properties *)

(** ** The repository's tests, replayed on the model *)

Section Tests.
Import Fixture.

Example next_item_when_no_group :
  focused_id tg1_ti3 (TreeItem.onKeyDown tree tg1_ti3 "ArrowDown") = Some "tg1-ti4".
Proof. reflexivity. Qed.

Example next_item_when_group_is_expanded :
  focused_id ti1 (TreeItem.onKeyDown tree ti1 "ArrowDown") = Some "ti2".
Proof. reflexivity. Qed.

Example collapsed_group_on_ArrowDown :
  focused_id tg1_ti2 (TreeItem.onKeyDown tree tg1_ti2 "ArrowDown") = Some "tg1-ti2-tg1".
Proof. reflexivity. Qed.

Example twice_removed_sibling_on_ArrowDown :
  focused_id tg1_ti4 (TreeItem.onKeyDown tree tg1_ti4 "ArrowDown") = Some "ti2".
Proof. reflexivity. Qed.

Example previous_item_on_ArrowLeft :
  focused_id tg1_ti4 (TreeItem.onKeyDown tree tg1_ti4 "ArrowLeft") = Some "tg1-ti3".
Proof. reflexivity. Qed.

Example stepInto_group_on_ArrowRight :
  focused_id tg1_ti2 (TreeItem.onKeyDown tree tg1_ti2 "ArrowRight") = Some "tg1-ti2-tg1".
Proof. reflexivity. Qed.

Example next_item_on_ArrowRight :
  focused_id tg1_ti3 (TreeItem.onKeyDown tree tg1_ti3 "ArrowRight") = Some "tg1-ti4".
Proof. reflexivity. Qed.

Example twice_removed_sibling_on_ArrowRight :
  focused_id tg1_ti4 (TreeItem.onKeyDown tree tg1_ti4 "ArrowRight") = Some "ti2".
Proof. reflexivity. Qed.

Example previous_item_on_ArrowUp :
  focused_id ti2 (TreeItem.onKeyDown tree ti2 "ArrowUp") = Some "ti1"
  ∧ focused_id ti1 (TreeItem.onKeyDown tree ti1 "ArrowUp") = Some "tree".
Proof. split; reflexivity. Qed.

Example unrecognized_key_on_item : TreeItem.onKeyDown tree ti1 "A" = Stay.
Proof. reflexivity. Qed.

Example invalid_child_of_treegroup :
  Mount.mount (Mount.TreeGroupEl "" None None [Mount.HostEl "li" "" []; Mount.HostEl "li" "" []])
  = Spec.error_state.
Proof. reflexivity. Qed.

Example empty_group_not_expandable :
  TreeGroup.aria_expanded None (TreeGroup.constructor empty_group) = None
  ∧ TreeGroup.aria_expanded None (TreeGroup.expand (TreeGroup.constructor empty_group)) = None
  ∧ TreeGroup.aria_expanded None (TreeGroup.collapse (TreeGroup.constructor empty_group) []).1
    = None.
Proof. repeat split; reflexivity. Qed.

Example group_has_expanded :
  ariaExpanded <$> at_path tree ti1_group = Some (Some "true")
  ∧ TreeGroup.aria_expanded None ti1_group_instance = Some "true".
Proof. split; reflexivity. Qed.

Example group_collapses_on_click :
  TreeGroup.aria_expanded None (TreeGroup.onClick ti1_group_instance ti1_group).1
  = Some "false".
Proof. reflexivity. Qed.

Example group_expands_on_second_click :
  TreeGroup.aria_expanded None
    (TreeGroup.onClick (TreeGroup.onClick ti1_group_instance ti1_group).1 ti1_group).1
  = Some "true".
Proof. reflexivity. Qed.

Example group_ArrowDown :
  focused_id ti1_group (TreeGroup.onKeyDown ti1_group_instance tree ti1_group "ArrowDown").2
  = Some "ti2".
Proof. reflexivity. Qed.

Example group_ArrowLeft_then_ArrowRight :
  TreeGroup.aria_expanded None
    (TreeGroup.onKeyDown ti1_group_instance tree ti1_group "ArrowLeft").1 = Some "false"
  ∧ TreeGroup.aria_expanded None
      (TreeGroup.onKeyDown
         (TreeGroup.onKeyDown ti1_group_instance tree ti1_group "ArrowLeft").1
         tree ti1_group "ArrowRight").1 = Some "true"
  ∧ focused_id ti1_group
      (TreeGroup.onKeyDown
         (TreeGroup.onKeyDown ti1_group_instance tree ti1_group "ArrowLeft").1
         tree ti1_group "ArrowRight").2 = Some "tg1-ti1".
Proof. repeat split; reflexivity. Qed.

Example group_ArrowUp :
  focused_id ti1_group (TreeGroup.onKeyDown ti1_group_instance tree ti1_group "ArrowUp").2
  = Some "ti1".
Proof. reflexivity. Qed.

(** On a group that is the root element ArrowUp targets the container,
    and the focus stays where it is, as in 'should move focus to parent on
    ArrowUp'. *)
Example root_ArrowUp :
  TreeGroup.onKeyDown ti1_group_instance tree [] "ArrowUp" = (ti1_group_instance, Stay).
Proof. reflexivity. Qed.

Example group_toggles_on_Enter :
  TreeGroup.aria_expanded None
    (TreeGroup.onKeyDown ti1_group_instance tree ti1_group "Enter").1 = Some "false".
Proof. reflexivity. Qed.

Example group_ignores_other_keys :
  TreeGroup.onKeyDown ti1_group_instance tree ti1_group "A" = (ti1_group_instance, Stay).
Proof. reflexivity. Qed.

End Tests.

(** ** The constructor of TreeGroup *)

Section Constructor.
Import TreeGroup.

Lemma invalid_child (type : child_type) :
  negb (typeof_function type) || negb (name_is type "TreeItem")
  = negb (is_TreeItem type).
Proof. unfold is_TreeItem. now rewrite negb_andb. Qed.

Lemma validate_items (cs : list child_type) :
  ∀ index err items,
    (validate index cs err items).2
    = items + length (filter (λ t, is_TreeItem t = true) cs).
Proof.
  induction cs as [|type cs IH]; intros index err items; simpl.
  - lia.
  - rewrite invalid_child, filter_cons. destruct (is_TreeItem type) eqn:E; simpl.
    + rewrite IH. lia.
    + rewrite IH. lia.
Qed.

Lemma validate_error_length (cs : list child_type) :
  ∀ index err items,
    length (validate index cs err items).1
    = length err + length (filter (λ t, is_TreeItem t = false) cs).
Proof.
  induction cs as [|type cs IH]; intros index err items; simpl.
  - lia.
  - rewrite invalid_child, filter_cons. destruct (is_TreeItem type) eqn:E; simpl.
    + rewrite IH. lia.
    + rewrite IH, length_app. simpl. lia.
Qed.

Lemma constructor_expandable (p : props) :
  expandable (constructor p) = (1 <? Spec.items_of p).
Proof.
  unfold constructor, Spec.items_of.
  pose proof (validate_items (props_children p) 0 [] 0) as H.
  destruct (validate 0 (props_children p) [] 0) as [err items].
  simpl in *. now subst.
Qed.

Lemma constructor_expanded (p : props) :
  expanded (constructor p)
  = negb (attr_is (props_expanded p) "false" || (Spec.items_of p =? 0)).
Proof.
  unfold constructor, Spec.items_of, expanded.
  pose proof (validate_items (props_children p) 0 [] 0) as H.
  destruct (validate 0 (props_children p) [] 0) as [err items].
  simpl in *. now subst.
Qed.

Lemma constructor_error_length (p : props) :
  length (error (constructor p))
  = length (filter (λ t, is_TreeItem t = false) (props_children p)).
Proof.
  unfold constructor.
  pose proof (validate_error_length (props_children p) 0 [] 0) as H.
  destruct (validate 0 (props_children p) [] 0) as [err items].
  simpl in *. lia.
Qed.

(** The loop over every kind of child is [validate] on the types of the
    children when each child has one, and throws otherwise. *)
Lemma forEach_readable (children : list child) :
  ∀ index err items,
    forEach index children err items
    = match readable children with
      | Some types => Some (validate index types err items)
      | None => None
      end.
Proof.
  induction children as [|[type| |] rest IH]; intros index err items; simpl;
    try reflexivity.
  rewrite !IH. destruct (readable rest) as [types|]; simpl;
    now destruct (negb (typeof_function type) || negb (name_is type "TreeItem")).
Qed.

Lemma construct_cases (id : string) (hint : option string) (children : list child) :
  construct id hint children
  = match readable children with
    | Some types => Some (constructor (Props id hint types))
    | None => None
    end.
Proof.
  unfold construct, constructor. rewrite forEach_readable.
  destruct (readable children) as [types|]; [|reflexivity]. simpl.
  now destruct (validate 0 types [] 0).
Qed.

(** collapse, expand and toggle never touch [expandable]. *)
Lemma collapse_expandable this element :
  expandable (collapse this element).1 = expandable this.
Proof.
  unfold collapse.
  now destruct (expandable this && expanded this), (error this).
Qed.

Lemma expand_expandable this : expandable (expand this) = expandable this.
Proof. unfold expand. now destruct (expandable this && negb (expanded this)). Qed.

Lemma toggle_expandable this element :
  expandable (toggle this element).1 = expandable this.
Proof.
  unfold toggle. destruct (expanded this).
  - apply collapse_expandable.
  - apply expand_expandable.
Qed.

Lemma reachable_expandable p this :
  Spec.reachable p this → expandable this = expandable (constructor p).
Proof.
  induction 1 as [|this element _ IH|this _ IH|this element _ IH].
  - reflexivity.
  - now rewrite collapse_expandable.
  - now rewrite expand_expandable.
  - now rewrite toggle_expandable.
Qed.

(** On a group that is not expandable the three operations change nothing. *)
Lemma not_expandable_frozen this element :
  expandable this = false →
  (collapse this element).1 = this ∧ expand this = this ∧ (toggle this element).1 = this.
Proof.
  intros H. unfold toggle, collapse, expand. rewrite H. simpl.
  now destruct (expanded this).
Qed.

End Constructor.

(** C7.  Expandability invariant: a group, as constructed and after any
    sequence of collapse, expand and toggle, is expandable exactly when it
    has at least two items; and on a group that is not expandable, toggle,
    expand and collapse leave the reported [expanded] unchanged. *)
Theorem expandability_invariant (p : TreeGroup.props) (this : TreeGroup.instance) :
  Spec.reachable p this →
  (TreeGroup.expandable this = true ↔ 2 ≤ Spec.items_of p)
  ∧ (TreeGroup.expandable this = false →
     ∀ element,
       TreeGroup.expanded (TreeGroup.toggle this element).1 = TreeGroup.expanded this
       ∧ TreeGroup.expanded (TreeGroup.expand this) = TreeGroup.expanded this
       ∧ TreeGroup.expanded (TreeGroup.collapse this element).1 = TreeGroup.expanded this).
Proof.
  intros Hreach. split.
  - rewrite (reachable_expandable _ _ Hreach), constructor_expandable.
    rewrite Nat.ltb_lt. lia.
  - intros Hne element.
    destruct (not_expandable_frozen this element Hne) as (Hc & He & Ht).
    now rewrite Hc, He, Ht.
Qed.

Lemma expandability_invariant_witness :
  Spec.reachable Fixture.single_group
    (TreeGroup.toggle (TreeGroup.constructor Fixture.single_group) [1; 1]).1
  ∧ (TreeGroup.expandable
       (TreeGroup.toggle (TreeGroup.constructor Fixture.single_group) [1; 1]).1 = true
     ↔ 2 ≤ Spec.items_of Fixture.single_group)
  ∧ TreeGroup.expandable
      (TreeGroup.toggle (TreeGroup.constructor Fixture.single_group) [1; 1]).1 = false.
Proof.
  assert (Hreach : Spec.reachable Fixture.single_group
            (TreeGroup.toggle (TreeGroup.constructor Fixture.single_group) [1; 1]).1)
    by apply Spec.reach_toggle, Spec.reach_constructor.
  split; [exact Hreach|].
  split; [|reflexivity].
  exact (proj1 (expandability_invariant _ _ Hreach)).
Defined.

(** On an expandable group that rendered its list, in either expansion
    state, toggling twice restores the reported [expanded]. *)
Lemma toggle_twice_rendered (this : TreeGroup.instance) (element : path) :
  TreeGroup.error this = [] →
  TreeGroup.expandable this = true →
  TreeGroup.expanded (TreeGroup.toggle (TreeGroup.toggle this element).1 element).1
  = TreeGroup.expanded this.
Proof.
  intros Herr H. destruct this as [err able st]. simpl in Herr, H. subst err able.
  destruct st; reflexivity.
Qed.


(** C6, as stated, fails on the empty group of the tests: it is not
    expandable and reports [expanded = false]. *)
Lemma empty_group_not_expanded : ¬ Spec.small_group_expanded Fixture.empty_group.
Proof.
  intros H. unfold Spec.small_group_expanded in H.
  assert (Hle : Spec.items_of Fixture.empty_group ≤ 1) by (vm_compute; lia).
  specialize (H Hle). vm_compute in H. discriminate H.
Qed.

Lemma reachable_not_expandable p this :
  Spec.reachable p this → Spec.items_of p ≤ 1 → this = TreeGroup.constructor p.
Proof.
  intros Hreach Hle.
  assert (Hc : TreeGroup.expandable (TreeGroup.constructor p) = false).
  { rewrite constructor_expandable. apply Nat.ltb_ge. lia. }
  induction Hreach as [|this element _ IH|this _ IH|this element _ IH]; [reflexivity|..];
    subst this;
    destruct (not_expandable_frozen (TreeGroup.constructor p) [] Hc) as (H1 & H2 & H3);
    try destruct (not_expandable_frozen (TreeGroup.constructor p) element Hc)
      as (H1' & H2' & H3'); congruence.
Qed.

(** C6, amended.  For a group of zero or one items the reported [expanded]
    is the value fixed by the constructor, false for an empty group and, for
    a group of one item, true unless the hint is "false"; collapse, expand
    and toggle never change it.  The rendered aria-expanded attribute is
    'true' when it is true; when it is false the group sets no attribute of
    its own, and the element carries the aria-expanded the caller passed,
    if any. *)
Theorem small_group_expanded_value (p : TreeGroup.props) (this : TreeGroup.instance) :
  Spec.reachable p this →
  Spec.items_of p ≤ 1 →
  TreeGroup.expanded this
  = (Spec.items_of p =? 1) && negb (attr_is (TreeGroup.props_expanded p) "false")
  ∧ ∀ passed,
      TreeGroup.aria_expanded passed this
      = (if TreeGroup.expanded this then Some "true" else passed).
Proof.
  intros Hreach Hle.
  rewrite (reachable_not_expandable _ _ Hreach Hle).
  unfold TreeGroup.aria_expanded.
  rewrite constructor_expandable, constructor_expanded.
  replace (1 <? Spec.items_of p) with false by (symmetry; apply Nat.ltb_ge; lia).
  destruct (attr_is (TreeGroup.props_expanded p) "false");
    destruct (Spec.items_of p) as [|[|n]]; simpl; try lia; split; reflexivity.
Qed.

Lemma small_group_expanded_value_witness :
  Spec.reachable Fixture.single_group
    (TreeGroup.expand (TreeGroup.constructor Fixture.single_group))
  ∧ Spec.items_of Fixture.single_group ≤ 1
  ∧ TreeGroup.expanded (TreeGroup.expand (TreeGroup.constructor Fixture.single_group))
    = false
  ∧ TreeGroup.aria_expanded (Some "true")
      (TreeGroup.expand (TreeGroup.constructor Fixture.single_group))
    = Some "true".
Proof.
  assert (Hreach : Spec.reachable Fixture.single_group
            (TreeGroup.expand (TreeGroup.constructor Fixture.single_group)))
    by apply Spec.reach_expand, Spec.reach_constructor.
  assert (Hle : Spec.items_of Fixture.single_group ≤ 1) by (vm_compute; lia).
  split; [exact Hreach|]. split; [exact Hle|].
  split.
  - exact (proj1 (small_group_expanded_value _ _ Hreach Hle)).
  - exact (proj2 (small_group_expanded_value _ _ Hreach Hle) (Some "true")).
Defined.

(** ** The document *)

Section DomFacts.

(** Induction over a document with the hypothesis for every child. *)
Lemma node_ind_children (P : node → Prop) :
  (∀ t i r a o kids, Forall P kids → P (Element t i r a o kids)) →
  ∀ n, P n.
Proof.
  intros step. fix IH 1. intros [t i r a o kids]. apply step.
  induction kids as [|k kids IHkids]; constructor; [apply IH | exact IHkids].
Qed.

Lemma at_path_app (d : node) (r p : path) :
  at_path d (r ++ p) = at_path d p ≫= λ n, at_path n r.
Proof.
  induction r as [|i r IH]; simpl.
  - now destruct (at_path d p).
  - rewrite IH. now destruct (at_path d p).
Qed.

(** Where the entries of [descendants_from] come from. *)
Lemma descendants_from_inv (f : node → list (path * node)) (l : list node) :
  ∀ i x,
    x ∈ descendants_from f i l →
    ∃ j k, l !! j = Some k
           ∧ (x = ([i + j], k) ∨ ∃ y, y ∈ f k ∧ x = (y.1 ++ [i + j], y.2)).
Proof.
  induction l as [|k l IH]; intros i x Hx; simpl in Hx.
  - inversion Hx.
  - apply elem_of_cons in Hx as [->|Hx].
    { exists 0, k. split; [reflexivity|]. left. now rewrite Nat.add_0_r. }
    apply elem_of_app in Hx as [Hx|Hx].
    + apply list_elem_of_fmap in Hx as (y & -> & Hy).
      exists 0, k. split; [reflexivity|]. right. exists y.
      now rewrite Nat.add_0_r.
    + destruct (IH _ _ Hx) as (j & k' & Hj & Hcase).
      exists (S j), k'. split; [exact Hj|].
      now replace (i + S j) with (S i + j) by lia.
Qed.

(** A descendant is found at the path it is listed with. *)
Lemma descendants_at_path (n : node) :
  ∀ x, x ∈ descendants n → at_path n x.1 = Some x.2 ∧ x.1 ≠ [].
Proof.
  induction n as [t i r a o kids IH] using node_ind_children.
  intros x Hx. simpl in Hx.
  destruct (descendants_from_inv _ _ _ _ Hx) as (j & k & Hj & [->|(y & Hy & ->)]);
    simpl.
  - now rewrite Hj.
  - rewrite Forall_forall in IH.
    assert (Hk : k ∈ kids) by (apply list_elem_of_lookup; eauto).
    destruct (IH k Hk y Hy) as [Hat _].
    split; [|now destruct (y.1)].
    rewrite (at_path_app _ (y.1) [j]). simpl. rewrite Hj. exact Hat.
Qed.

(** The elements [getElementsByTagName] returns lie strictly below the
    element it is called on, and are what the document holds there. *)
Lemma getElementsByTagName_inv (d : node) (p : path) (tag : string) :
  ∀ x, x ∈ getElementsByTagName d p tag →
       at_path d x.1 = Some x.2 ∧ ∃ r, r ≠ [] ∧ x.1 = r ++ p.
Proof.
  intros x Hx. unfold getElementsByTagName in Hx.
  destruct (at_path d p) as [n|] eqn:Hp; [|inversion Hx].
  apply list_elem_of_fmap in Hx as (y & -> & Hy).
  apply list_elem_of_filter in Hy as [_ Hy].
  destruct (descendants_at_path n y Hy) as [Hat Hne]. simpl.
  split; [|eauto].
  now rewrite at_path_app, Hp.
Qed.

Lemma moveTo_Some (d : node) (p : path) :
  Spec.takes_focus d p = true → moveTo d (Some p) = Focus p.
Proof.
  unfold Spec.takes_focus, moveTo.
  destruct (at_path d p) as [n|]; [|discriminate].
  now destruct (own n).
Qed.

Lemma moveTo_Focus (d : node) (target : option path) (q : path) :
  moveTo d target = Focus q → target = Some q ∧ Spec.takes_focus d q = true.
Proof.
  unfold Spec.takes_focus, moveTo.
  destruct target as [p|]; [|discriminate].
  destruct (at_path d p) as [n|] eqn:Hp; [|discriminate].
  destruct (own n) eqn:Ho; try discriminate;
    intros [= <-]; rewrite Hp, Ho; auto.
Qed.

Lemma moveTo_None (d : node) : moveTo d None = Throw.
Proof. reflexivity. Qed.

Lemma nextSibling_inv (d : node) (p s : path) :
  nextSibling d p = Some s → ∃ i q, p = i :: q ∧ s = S i :: q.
Proof.
  destruct p as [|i q]; [discriminate|]. simpl. unfold exists_at.
  destruct (at_path d (S i :: q)); [|discriminate].
  intros [= <-]. eauto.
Qed.

End DomFacts.

(** ** TreeItem: what the handlers see of the child group *)

Section TreeItemFacts.

Lemma onKeyDown_ArrowDown d item :
  TreeItem.onKeyDown d item "ArrowDown" = TreeItem.next d item.
Proof. reflexivity. Qed.

Lemma onKeyDown_ArrowRight d item :
  TreeItem.onKeyDown d item "ArrowRight" = TreeItem.stepInto d item.
Proof. reflexivity. Qed.

Lemma onKeyDown_ArrowLeft d item :
  TreeItem.onKeyDown d item "ArrowLeft" = TreeItem.previous d item.
Proof. reflexivity. Qed.

Lemma onKeyDown_ArrowUp d item :
  TreeItem.onKeyDown d item "ArrowUp" = TreeItem.previous d item.
Proof. reflexivity. Qed.

(** With a child group, [group] is true, [subtree.item(0)] is the group
    and [isExpanded] is what the document reports for it. *)
Lemma childGroup_Some d item g :
  Spec.childGroup d item = Some g →
  TreeItem.first_attr_is (getElementsByTagName d item "ol") role "group" = true
  ∧ TreeItem.item0 (getElementsByTagName d item "ol") = Some g
  ∧ TreeItem.first_attr_is (getElementsByTagName d item "ol") ariaExpanded "true"
    = Spec.isExpanded d g
  ∧ ∃ r, r ≠ [] ∧ g = r ++ item.
Proof.
  unfold Spec.childGroup. intros H.
  pose proof (getElementsByTagName_inv d item "ol") as Hinv.
  destruct (getElementsByTagName d item "ol") as [|x rest]; [discriminate|].
  destruct (attr_is (role x.2) "group") eqn:Hrole; [|discriminate].
  injection H as <-.
  destruct (Hinv x) as [Hat Hbelow]; [apply list_elem_of_here|].
  repeat split; simpl; auto.
  unfold Spec.isExpanded. now rewrite Hat.
Qed.

Lemma childGroup_None d item :
  Spec.childGroup d item = None →
  TreeItem.first_attr_is (getElementsByTagName d item "ol") role "group" = false.
Proof.
  unfold Spec.childGroup.
  destruct (getElementsByTagName d item "ol") as [|x rest]; [reflexivity|].
  simpl. now destruct (attr_is (role x.2) "group").
Qed.

(** [next], case by case. *)
Lemma next_cases d item :
  TreeItem.next d item
  = match nextSibling d item, Spec.childGroup d item with
    | Some s, None => moveTo d (Some s)
    | Some s, Some g =>
        if Spec.isExpanded d g then moveTo d (Some s) else moveTo d (Some g)
    | None, Some g => moveTo d (Some g)
    | None, None => moveTo d (Spec.owningItem item ≫= nextSibling d)
    end.
Proof.
  unfold TreeItem.next.
  destruct (Spec.childGroup d item) as [g|] eqn:Hg.
  - destruct (childGroup_Some _ _ _ Hg) as (-> & -> & -> & _).
    destruct (nextSibling d item) as [s|]; simpl; [|reflexivity].
    now destruct (Spec.isExpanded d g).
  - rewrite (childGroup_None _ _ Hg).
    now destruct (nextSibling d item) as [s|].
Qed.

(** [stepInto], case by case. *)
Lemma stepInto_cases d item :
  TreeItem.stepInto d item
  = match Spec.childGroup d item with
    | Some g => moveTo d (Some g)
    | None => TreeItem.next d item
    end.
Proof.
  rewrite next_cases. unfold TreeItem.stepInto.
  destruct (Spec.childGroup d item) as [g|] eqn:Hg.
  - now destruct (childGroup_Some _ _ _ Hg) as (-> & -> & _).
  - rewrite (childGroup_None _ _ Hg).
    now destruct (nextSibling d item) as [s|].
Qed.

Lemma roles_agree_at (d : node) :
  Spec.roles_agree d = true →
  ∀ p n, at_path d p = Some n → Spec.roles_agree n = true.
Proof.
  intros Hd p. induction p as [|i q IH]; intros n Hn; simpl in Hn.
  - now injection Hn as <-.
  - destruct (at_path d q) as [m|]; [|discriminate]. simpl in Hn.
    specialize (IH m eq_refl). destruct m as [t j r a o kids]. simpl in *.
    apply andb_true_iff in IH as [_ Hkids].
    rewrite forallb_forall in Hkids. apply Hkids.
    apply list_elem_of_In, list_elem_of_lookup. eauto.
Qed.

(** In a document whose roles agree with the owners, what takes the
    focus is an Item, a Group node or the Tree root. *)
Lemma takes_focus_kind (d : node) (p : path) :
  Spec.roles_agree d = true →
  Spec.takes_focus d p = true →
  Spec.is_item d p || Spec.is_group d p || Spec.is_root d p = true.
Proof.
  intros Hd Hp. unfold Spec.takes_focus in Hp.
  unfold Spec.is_item, Spec.is_group, Spec.is_root, Spec.has_role.
  destruct (at_path d p) as [n|] eqn:Hn; [|discriminate].
  pose proof (roles_agree_at d Hd p n Hn) as Hr.
  destruct n as [t j r a o kids]. simpl in *.
  apply andb_true_iff in Hr as [Hr _].
  destruct o; try discriminate; rewrite Hr; simpl;
    repeat (rewrite orb_true_r; simpl); reflexivity.
Qed.

End TreeItemFacts.

(** ** ArrowDown on an Item *)

(** C1, as stated, fails on the first item of the tests' tree: its child
    group is expanded, yet ArrowDown moves to the next sibling, as the test
    'should move focus to next item when group is expanded' expects. *)
Lemma step_down_skips_expanded_group : ¬ Spec.step_down Fixture.tree Fixture.ti1.
Proof. intros H. vm_compute in H. discriminate H. Qed.

(** C1, amended.  ArrowDown on an Item moves the focus to the next sibling
    when there is one and the child group is absent or expanded; it moves
    the focus to the Group node itself, not to the group's first item, when
    the child group exists and is collapsed or the Item is the last of its
    siblings. *)
Theorem step_down_moves (d : node) (item : path) :
  (∀ s, nextSibling d item = Some s →
        Spec.takes_focus d s = true →
        Spec.childGroup d item = None ∨ Spec.usable_child d item = true →
        TreeItem.onKeyDown d item "ArrowDown" = Focus s)
  ∧ (∀ g, Spec.childGroup d item = Some g →
          Spec.takes_focus d g = true →
          nextSibling d item = None ∨ Spec.isExpanded d g = false →
          TreeItem.onKeyDown d item "ArrowDown" = Focus g).
Proof.
  rewrite onKeyDown_ArrowDown, next_cases. unfold Spec.usable_child. split.
  - intros s -> Hs Hcase.
    destruct (Spec.childGroup d item) as [g|].
    + destruct Hcase as [Hcase| ->]; [discriminate|]. now apply moveTo_Some.
    + now apply moveTo_Some.
  - intros g -> Hg Hcase.
    destruct (nextSibling d item) as [s|].
    + destruct Hcase as [Hcase| ->]; [discriminate|]. now apply moveTo_Some.
    + now apply moveTo_Some.
Qed.

Lemma step_down_moves_witness :
  (nextSibling Fixture.tree Fixture.ti1 = Some Fixture.ti2
   ∧ Spec.takes_focus Fixture.tree Fixture.ti2 = true
   ∧ Spec.usable_child Fixture.tree Fixture.ti1 = true
   ∧ TreeItem.onKeyDown Fixture.tree Fixture.ti1 "ArrowDown" = Focus Fixture.ti2)
  ∧ (Spec.childGroup Fixture.tree Fixture.tg1_ti2 = Some Fixture.tg1_ti2_tg1
     ∧ Spec.takes_focus Fixture.tree Fixture.tg1_ti2_tg1 = true
     ∧ Spec.isExpanded Fixture.tree Fixture.tg1_ti2_tg1 = false
     ∧ TreeItem.onKeyDown Fixture.tree Fixture.tg1_ti2 "ArrowDown"
       = Focus Fixture.tg1_ti2_tg1).
Proof.
  split; (split; [reflexivity|]); (split; [reflexivity|]); (split; [reflexivity|]).
  - apply (proj1 (step_down_moves Fixture.tree Fixture.ti1) Fixture.ti2);
      [reflexivity | reflexivity | right; reflexivity].
  - apply (proj2 (step_down_moves Fixture.tree Fixture.tg1_ti2) Fixture.tg1_ti2_tg1);
      [reflexivity | reflexivity | right; reflexivity].
Defined.

(** C2, as stated, fails on the innermost item of the tests' tree: it is
    the only item of its group and has no child group; its owner is the last
    item of its own group, and the owner of that one has a next sibling.
    The specification sends the focus to that sibling; the handler looks one
    level up only, finds no sibling there, and the focus stays on the
    item. *)
Lemma step_down_does_not_climb_twice :
  ¬ Spec.step_down_fallback Fixture.tree Fixture.tg1_ti1_tg1_ti2_tg1_ti1.
Proof.
  intros H. unfold Spec.step_down_fallback in H.
  specialize (H eq_refl eq_refl). vm_compute in H. discriminate H.
Qed.

(** C2, amended.  For an Item that is the last of its siblings and has no
    child group, ArrowDown climbs exactly one level: the focus moves to the
    next sibling of the Item that owns the group, when there is one, and to
    no other element of the tree; the siblings of higher ancestors are
    never reached. *)
Theorem step_down_climbs_one_level (d : node) (item : path) :
  nextSibling d item = None →
  Spec.childGroup d item = None →
  (∀ s, Spec.owningItem item ≫= nextSibling d = Some s →
        Spec.takes_focus d s = true →
        TreeItem.onKeyDown d item "ArrowDown" = Focus s)
  ∧ (∀ q, TreeItem.onKeyDown d item "ArrowDown" = Focus q →
          Spec.owningItem item ≫= nextSibling d = Some q).
Proof.
  intros Hlast Hnone. rewrite onKeyDown_ArrowDown, next_cases, Hlast, Hnone. split.
  - intros s -> Hs. now apply moveTo_Some.
  - intros q Hq. now apply moveTo_Focus in Hq.
Qed.

Lemma step_down_climbs_one_level_witness :
  nextSibling Fixture.tree Fixture.tg1_ti4 = None
  ∧ Spec.childGroup Fixture.tree Fixture.tg1_ti4 = None
  ∧ Spec.owningItem Fixture.tg1_ti4 ≫= nextSibling Fixture.tree = Some Fixture.ti2
  ∧ TreeItem.onKeyDown Fixture.tree Fixture.tg1_ti4 "ArrowDown" = Focus Fixture.ti2.
Proof.
  split; [reflexivity|]. split; [reflexivity|]. split; [reflexivity|].
  apply (proj1 (step_down_climbs_one_level Fixture.tree Fixture.tg1_ti4
                  eq_refl eq_refl) Fixture.ti2); reflexivity.
Defined.

(** ** ArrowRight on an Item *)

(** C3, as stated, fails on the second item of the first group of the
    tests' tree: ArrowRight leaves the focus on its collapsed Group node, as
    the test 'should stepInto group if one exists' expects, not on the first
    item of the group. *)
Lemma step_into_stops_at_group : ¬ Spec.step_into Fixture.tree Fixture.tg1_ti2.
Proof. intros H. vm_compute in H. discriminate H. Qed.

(** C3, amended.  ArrowRight on an Item that has a child group moves the
    focus to the Group node; ArrowRight on that Group node expands the group
    when it is expandable and collapsed, and moves the focus to the group's
    first item.  ArrowRight on an Item without a child group does what
    ArrowDown does there. *)
Theorem step_into_moves (d : node) (item : path) :
  (∀ g, Spec.childGroup d item = Some g →
        Spec.takes_focus d g = true →
        TreeItem.onKeyDown d item "ArrowRight" = Focus g
        ∧ ∀ this,
            Spec.takes_focus d (Spec.firstItem g) = true →
            (TreeGroup.onKeyDown this d g "ArrowRight").2 = Focus (Spec.firstItem g)
            ∧ TreeGroup.expanded (TreeGroup.onKeyDown this d g "ArrowRight").1
              = TreeGroup.expandable this || TreeGroup.expanded this)
  ∧ (Spec.childGroup d item = None →
     TreeItem.onKeyDown d item "ArrowRight" = TreeItem.onKeyDown d item "ArrowDown").
Proof.
  rewrite onKeyDown_ArrowRight, onKeyDown_ArrowDown, stepInto_cases. split.
  - intros g -> Hg. split; [now apply moveTo_Some|].
    intros this Hfirst.
    change (TreeGroup.onKeyDown this d g "ArrowRight")
      with (TreeGroup.expand this, TreeGroup.stepInto d g).
    simpl. split.
    + unfold TreeGroup.stepInto, firstChild, exists_at.
      assert (Hat : is_Some (at_path d (0 :: g))).
      { unfold Spec.takes_focus, Spec.firstItem in Hfirst.
        destruct (at_path d (0 :: g)); [eauto | discriminate]. }
      destruct Hat as [n Hn]. rewrite Hn. now apply moveTo_Some.
    + unfold TreeGroup.expand, TreeGroup.expanded.
      destruct this as [err able st]. simpl. now destruct able, st.
  - now intros ->.
Qed.

Lemma step_into_moves_witness :
  Spec.childGroup Fixture.tree Fixture.tg1_ti2 = Some Fixture.tg1_ti2_tg1
  ∧ Spec.takes_focus Fixture.tree Fixture.tg1_ti2_tg1 = true
  ∧ TreeItem.onKeyDown Fixture.tree Fixture.tg1_ti2 "ArrowRight"
    = Focus Fixture.tg1_ti2_tg1
  ∧ Spec.childGroup Fixture.tree Fixture.tg1_ti3 = None
  ∧ TreeItem.onKeyDown Fixture.tree Fixture.tg1_ti3 "ArrowRight"
    = TreeItem.onKeyDown Fixture.tree Fixture.tg1_ti3 "ArrowDown".
Proof.
  split; [reflexivity|]. split; [reflexivity|]. split.
  - apply (proj1 (step_into_moves Fixture.tree Fixture.tg1_ti2) Fixture.tg1_ti2_tg1);
      reflexivity.
  - split; [reflexivity|].
    apply (proj2 (step_into_moves Fixture.tree Fixture.tg1_ti3)). reflexivity.
Defined.

(** ** ArrowLeft on an Item *)

(** C4.  Collapse-left on the first item of the first group of the tests'
    tree.  Its own child group has two items and is expanded, so the key
    should collapse that group and leave the focus on the item.  The
    handler of the item is [previous], the one of ArrowUp: it finds no
    previous sibling and moves the focus to the parent node, the Group node
    that contains the item.  A TreeItem has no access to the state of a
    group, so nothing is collapsed. *)
Theorem arrow_left_on_expanded_group :
  Spec.childGroup Fixture.tree Fixture.tg1_ti1 = Some Fixture.tg1_ti1_tg1
  ∧ Spec.isExpandable Fixture.tree Fixture.tg1_ti1_tg1 = true
  ∧ Spec.isExpanded Fixture.tree Fixture.tg1_ti1_tg1 = true
  ∧ TreeItem.onKeyDown Fixture.tree Fixture.tg1_ti1 "ArrowLeft"
    = Focus Fixture.ti1_group
  ∧ TreeItem.onKeyDown Fixture.tree Fixture.tg1_ti1 "ArrowLeft"
    = TreeItem.onKeyDown Fixture.tree Fixture.tg1_ti1 "ArrowUp"
  ∧ ¬ Spec.collapse_left Fixture.tree Fixture.tg1_ti1.
Proof.
  repeat (split; [reflexivity|]).
  intros H. vm_compute in H. discriminate H.
Qed.

(** ** Where the focus can be *)

(** C5, as stated, fails on the second item of the first group of the
    tests' tree: ArrowDown leaves the focus on a Group node, as the test
    'should move focus to collapsed group on ArrowDown' expects. *)
Lemma focus_lands_on_group :
  ¬ Spec.focus_invariant Fixture.tree Fixture.tg1_ti2 "ArrowDown".
Proof. intros H. vm_compute in H. discriminate H. Qed.

Lemma moveTo_parentNode_Focus (d : node) (element q : path) :
  moveTo_parentNode d element = Focus q →
  parentNode element = Some q ∧ Spec.takes_focus d q = true.
Proof.
  destruct element as [|i parent]; [discriminate|].
  unfold moveTo_parentNode, parentNode.
  intros Hfocus. now apply moveTo_Focus in Hfocus.
Qed.

Lemma TreeItem_onKeyDown_Focus d item key q :
  TreeItem.onKeyDown d item key = Focus q → Spec.takes_focus d q = true.
Proof.
  unfold TreeItem.onKeyDown, TreeItem.next, TreeItem.stepInto, TreeItem.previous.
  repeat case_match; try discriminate; intros Hfocus;
    solve [ now apply moveTo_Focus in Hfocus
          | now apply moveTo_parentNode_Focus in Hfocus ].
Qed.

Lemma TreeGroup_onKeyDown_Focus this d element key q :
  (TreeGroup.onKeyDown this d element key).2 = Focus q →
  q = element ∨ Spec.takes_focus d q = true.
Proof.
  unfold TreeGroup.onKeyDown, TreeGroup.toggle, TreeGroup.collapse,
    TreeGroup.next, TreeGroup.previous, TreeGroup.stepInto.
  repeat case_match; simpl; try discriminate; intros Hfocus;
    try (injection Hfocus as <-; now left);
    right;
    solve [ now apply moveTo_Focus in Hfocus
          | now apply moveTo_parentNode_Focus in Hfocus ].
Qed.

(** The tree of the tests inside a page: ArrowDown on its last top-level
    item reaches the sibling of the container of the tree, a <nav> that a
    Menu rendered, and the focus goes to the first button of that menu. *)
Example focus_can_leave_tree :
  TreeItem.onKeyDown Fixture.page (1 :: [0; 0]) "ArrowDown"
  = Elsewhere (Some [0; 0; 0; 1])
  ∧ id <$> at_path Fixture.page [0; 0; 0; 1] = Some "first-entry".
Proof. split; reflexivity. Qed.

(** C5, amended.  In a document whose elements carry the role of the
    component that rendered them, a key pressed while an Item or a Group
    node has the focus leaves the focus on an Item, on a Group node or on
    the Tree root, unless the handler handed the focus to a component
    outside the tree: Group nodes take the focus like Items do. *)
Theorem focus_on_item_group_or_root (d : node) (current : path) (key : string) :
  Spec.roles_agree d = true →
  Spec.is_item d current || Spec.is_group d current = true →
  (Spec.leaves_tree (TreeItem.onKeyDown d current key)
   || (Spec.is_item d (activeElement_after current (TreeItem.onKeyDown d current key))
       || Spec.is_group d (activeElement_after current (TreeItem.onKeyDown d current key))
       || Spec.is_root d (activeElement_after current (TreeItem.onKeyDown d current key)))
   = true)
  ∧ ∀ this,
      Spec.leaves_tree (TreeGroup.onKeyDown this d current key).2
      || (Spec.is_item d
            (activeElement_after current (TreeGroup.onKeyDown this d current key).2)
          || Spec.is_group d
               (activeElement_after current (TreeGroup.onKeyDown this d current key).2)
          || Spec.is_root d
               (activeElement_after current (TreeGroup.onKeyDown this d current key).2))
      = true.
Proof.
  intros Hd Hcur.
  assert (Hstay : Spec.is_item d current || Spec.is_group d current
                  || Spec.is_root d current = true) by now rewrite Hcur.
  split.
  - destruct (TreeItem.onKeyDown d current key) as [q| | |lands] eqn:Ho; simpl; auto.
    apply takes_focus_kind; [exact Hd|].
    exact (TreeItem_onKeyDown_Focus _ _ _ _ Ho).
  - intros this.
    destruct (TreeGroup.onKeyDown this d current key).2 as [q| | |lands] eqn:Ho;
      simpl; auto.
    destruct (TreeGroup_onKeyDown_Focus _ _ _ _ _ Ho) as [->|Hq]; [exact Hstay|].
    now apply takes_focus_kind.
Qed.

Lemma focus_on_item_group_or_root_witness :
  Spec.roles_agree Fixture.tree = true
  ∧ Spec.is_item Fixture.tree Fixture.tg1_ti2
    || Spec.is_group Fixture.tree Fixture.tg1_ti2 = true
  ∧ Spec.leaves_tree (TreeItem.onKeyDown Fixture.tree Fixture.tg1_ti2 "ArrowDown") = false
  ∧ Spec.is_group Fixture.tree
      (activeElement_after Fixture.tg1_ti2
         (TreeItem.onKeyDown Fixture.tree Fixture.tg1_ti2 "ArrowDown")) = true
  ∧ Spec.leaves_tree (TreeItem.onKeyDown Fixture.tree Fixture.tg1_ti2 "ArrowDown")
    || (Spec.is_item Fixture.tree
          (activeElement_after Fixture.tg1_ti2
             (TreeItem.onKeyDown Fixture.tree Fixture.tg1_ti2 "ArrowDown"))
        || Spec.is_group Fixture.tree
             (activeElement_after Fixture.tg1_ti2
                (TreeItem.onKeyDown Fixture.tree Fixture.tg1_ti2 "ArrowDown"))
        || Spec.is_root Fixture.tree
             (activeElement_after Fixture.tg1_ti2
                (TreeItem.onKeyDown Fixture.tree Fixture.tg1_ti2 "ArrowDown")))
    = true.
Proof.
  split; [reflexivity|]. split; [reflexivity|]. split; [reflexivity|].
  split; [reflexivity|].
  apply (proj1 (focus_on_item_group_or_root Fixture.tree Fixture.tg1_ti2 "ArrowDown"
                  eq_refl eq_refl)).
Defined.

(** Mounting gives every element the role of its component. *)
Lemma element_ind_children (P : Mount.element → Prop) :
  (∀ id kids, Forall P kids → P (Mount.TreeItemEl id kids)) →
  (∀ id expanded passed kids,
     Forall P kids → P (Mount.TreeGroupEl id expanded passed kids)) →
  (∀ tag id kids, Forall P kids → P (Mount.HostEl tag id kids)) →
  (∀ kids, Forall P kids → P (Mount.FragmentEl kids)) →
  P Mount.TextEl →
  P Mount.NullEl →
  ∀ e, P e.
Proof.
  intros Hitem Hgroup Hhost Hfragment Htext Hnull. fix IH 1.
  assert (Hall : ∀ kids, Forall P kids).
  { intros kids. induction kids as [|k kids IHkids]; constructor;
      [apply IH | exact IHkids]. }
  intros [id kids | id expanded passed kids | tag id kids | kids | |];
    [apply Hitem | apply Hgroup | apply Hhost | apply Hfragment
    | exact Htext | exact Hnull]; apply Hall.
Qed.

Lemma forallb_flat_map {A B} (f : B → bool) (g : A → list B) (l : list A) :
  Forall (λ x, forallb f (g x) = true) l → forallb f (flat_map g l) = true.
Proof.
  induction 1 as [|x l Hx _ IH]; simpl; [reflexivity|].
  now rewrite forallb_app, Hx, IH.
Qed.

Lemma mount_roles_agree (e : Mount.element) :
  forallb Spec.roles_agree (Mount.mount e) = true.
Proof.
  induction e as [id kids IH | id expanded passed kids IH | tag id kids IH
                 | kids IH | |]
    using element_ind_children; simpl; try reflexivity.
  - now rewrite forallb_flat_map.
  - destruct (TreeGroup.construct _ _ _) as [this|]; [|reflexivity].
    unfold TreeGroup.render.
    destruct (TreeGroup.error this); simpl; [|reflexivity].
    now rewrite forallb_flat_map.
  - now rewrite forallb_flat_map.
  - now apply forallb_flat_map.
Qed.

(** ** Wrap-around in Menu and SubMenu, none in the Tree *)

Section Wrap.

Lemma contains_below (a r : path) : contains a (r ++ a) = true.
Proof.
  unfold contains. apply bool_decide_eq_true_2.
  apply drop_app_length'. rewrite length_app. lia.
Qed.

Lemma querySelectorAll_a_button_below d item c :
  c ∈ Menu.querySelectorAll_a_button d item → contains item c.1 = true.
Proof.
  unfold Menu.querySelectorAll_a_button.
  destruct (at_path d item); [|inversion 1].
  intros Hc. apply list_elem_of_fmap in Hc as (y & -> & _).
  apply contains_below.
Qed.

(** [next] from the last entry selects entry 0. *)
Lemma Menu_next_wraps d id activeElement first_item c rest :
  Menu.items d id !! 0 = Some first_item →
  Menu.activeIndex d id activeElement
  = Some (Z.of_nat (length (Menu.items d id)) - 1)%Z →
  Menu.querySelectorAll_a_button d first_item = c :: rest →
  Menu.next d id activeElement = Focus c.1.
Proof.
  intros Hfirst Hactive Hcontrols.
  unfold Menu.next. rewrite Hactive. unfold Menu.select.
  assert (Hlen : 0 < length (Menu.items d id)) by (eapply lookup_lt_Some; eauto).
  replace (Z.of_nat (length (Menu.items d id)) - 1 + 1 <? 0)%Z with false
    by (symmetry; apply Z.ltb_ge; lia).
  replace (Z.of_nat (length (Menu.items d id)) - 1 + 1
           >? Z.of_nat (length (Menu.items d id)) - 1)%Z with true
    by (symmetry; rewrite Z.gtb_ltb; apply Z.ltb_lt; lia).
  unfold Menu.item_at. change (0 <? 0)%Z with false. change (Z.to_nat 0) with 0.
  rewrite Hfirst. unfold Menu.focus_control. now rewrite Hcontrols.
Qed.

(** [prev] from entry 0 selects the last entry. *)
Lemma Menu_prev_wraps d id activeElement last_item c rest :
  Menu.items d id !! (length (Menu.items d id) - 1) = Some last_item →
  Menu.activeIndex d id activeElement = Some 0%Z →
  Menu.querySelectorAll_a_button d last_item = c :: rest →
  Menu.prev d id activeElement = Focus c.1.
Proof.
  intros Hlast Hactive Hcontrols.
  unfold Menu.prev. rewrite Hactive. unfold Menu.select.
  change (0 - 1 <? 0)%Z with true. cbv iota.
  assert (Hlen : 0 < length (Menu.items d id)).
  { apply lookup_lt_Some in Hlast. lia. }
  unfold Menu.item_at.
  replace (Z.of_nat (length (Menu.items d id)) - 1 <? 0)%Z with false
    by (symmetry; apply Z.ltb_ge; lia).
  replace (Z.to_nat (Z.of_nat (length (Menu.items d id)) - 1))
    with (length (Menu.items d id) - 1) by lia.
  rewrite Hlast. unfold Menu.focus_control. now rewrite Hcontrols.
Qed.

(** From the last Item of a group, ArrowDown never reaches a sibling. *)
Lemma Tree_next_no_wrap d i group sibling :
  nextSibling d (i :: group) = None →
  TreeItem.onKeyDown d (i :: group) "ArrowDown" ≠ Focus (sibling :: group).
Proof.
  intros Hlast. rewrite onKeyDown_ArrowDown, next_cases, Hlast.
  destruct (Spec.childGroup d (i :: group)) as [g|] eqn:Hg; intros Hfocus;
    apply moveTo_Focus in Hfocus as [Htarget _].
  - destruct (childGroup_Some _ _ _ Hg) as (_ & _ & _ & r & Hr & ->).
    injection Htarget as Hpath. apply (f_equal length) in Hpath.
    rewrite length_app in Hpath. simpl in Hpath.
    destruct r; [congruence | simpl in Hpath; lia].
  - unfold Spec.owningItem in Htarget. simpl in Htarget.
    destruct group as [|j owner]; [discriminate|]. simpl in Htarget.
    apply nextSibling_inv in Htarget as (k & q & -> & Hpath).
    apply (f_equal length) in Hpath. simpl in Hpath. lia.
Qed.

(** From the first Item of a group, ArrowUp never reaches a sibling. *)
Lemma Tree_previous_no_wrap d group sibling :
  TreeItem.onKeyDown d (0 :: group) "ArrowUp" ≠ Focus (sibling :: group).
Proof.
  rewrite onKeyDown_ArrowUp.
  change (TreeItem.previous d (0 :: group)) with (moveTo d (Some group)).
  intros Hfocus. apply moveTo_Focus in Hfocus as [Htarget _].
  injection Htarget as Hpath. apply (f_equal length) in Hpath.
  simpl in Hpath. lia.
Qed.

End Wrap.

(** C9, as stated, fails on a menu of two entries whose first entry holds
    neither a link nor a button: ArrowDown in the last entry selects the
    first one, finds nothing there to focus, and the focus does not
    move. *)
Lemma menu_without_control_does_not_wrap :
  ¬ Spec.menu_wraps MenuFixture.bare_menu "bare".
Proof.
  intros H.
  destruct (H [0; 0] [1; 0] eq_refl eq_refl) as [Hdown _].
  destruct (Hdown MenuFixture.only eq_refl) as (c & Hc & _).
  vm_compute in Hc. discriminate Hc.
Qed.

(** C9, amended.  In a Menu, ArrowDown while the focus is in the last entry
    moves it into the first entry when that entry holds a link or button,
    and ArrowUp while it is in the first entry moves it into the last one
    when that entry holds a link or button, to the first link or button
    there; a SubMenu does the same for any target but its controller.  In
    the Tree, ArrowDown on the last Item of a group and ArrowUp on the
    first one never move the focus to an Item of the same group. *)
Theorem menu_wraps_tree_does_not :
  (∀ d id activeElement first_item c rest,
     Menu.items d id !! 0 = Some first_item →
     Menu.activeIndex d id activeElement
     = Some (Z.of_nat (length (Menu.items d id)) - 1)%Z →
     Menu.querySelectorAll_a_button d first_item = c :: rest →
     contains first_item c.1 = true
     ∧ Menu.onKeyDown d id activeElement "ArrowDown" = Some (Focus c.1)
     ∧ ∀ expanded,
         Some activeElement ≠ SubMenu.controller d id →
         (SubMenu.onArrowDown expanded d id activeElement).2 = Focus c.1)
  ∧ (∀ d id activeElement last_item c rest,
       Menu.items d id !! (length (Menu.items d id) - 1) = Some last_item →
       Menu.activeIndex d id activeElement = Some 0%Z →
       Menu.querySelectorAll_a_button d last_item = c :: rest →
       contains last_item c.1 = true
       ∧ Menu.onKeyDown d id activeElement "ArrowUp" = Some (Focus c.1)
       ∧ ∀ expanded,
           Some activeElement ≠ SubMenu.controller d id →
           (SubMenu.onArrowUp expanded d id activeElement).2 = Focus c.1)
  ∧ (∀ d i group sibling,
       nextSibling d (i :: group) = None →
       TreeItem.onKeyDown d (i :: group) "ArrowDown" ≠ Focus (sibling :: group))
  ∧ (∀ d group sibling,
       TreeItem.onKeyDown d (0 :: group) "ArrowUp" ≠ Focus (sibling :: group)).
Proof.
  split; [|split; [|split]].
  - intros d id activeElement first_item c rest Hfirst Hactive Hcontrols.
    pose proof (Menu_next_wraps _ _ _ _ _ _ Hfirst Hactive Hcontrols) as Hnext.
    split; [|split].
    + apply (querySelectorAll_a_button_below d). rewrite Hcontrols. apply list_elem_of_here.
    + change (Menu.onKeyDown d id activeElement "ArrowDown")
        with (Some (Menu.next d id activeElement)).
      now rewrite Hnext.
    + intros expanded Hne. unfold SubMenu.onArrowDown. simpl.
      rewrite bool_decide_eq_false_2 by exact Hne. exact Hnext.
  - intros d id activeElement last_item c rest Hlast Hactive Hcontrols.
    pose proof (Menu_prev_wraps _ _ _ _ _ _ Hlast Hactive Hcontrols) as Hprev.
    split; [|split].
    + apply (querySelectorAll_a_button_below d). rewrite Hcontrols. apply list_elem_of_here.
    + change (Menu.onKeyDown d id activeElement "ArrowUp")
        with (Some (Menu.prev d id activeElement)).
      now rewrite Hprev.
    + intros expanded Hne. unfold SubMenu.onArrowUp. simpl.
      rewrite bool_decide_eq_true_2 by exact Hne. exact Hprev.
  - exact Tree_next_no_wrap.
  - exact Tree_previous_no_wrap.
Qed.

Lemma menu_wraps_tree_does_not_witness :
  (Menu.items MenuFixture.menu "spacebears" !! 0 = Some [0; 1]
   ∧ Menu.activeIndex MenuFixture.menu "spacebears" MenuFixture.about = Some 2%Z
   ∧ Menu.onKeyDown MenuFixture.menu "spacebears" MenuFixture.about "ArrowDown"
     = Some (Focus MenuFixture.fullscreen))
  ∧ (Menu.items MenuFixture.menu "spacebears" !! 2 = Some [2; 1]
     ∧ Menu.activeIndex MenuFixture.menu "spacebears" MenuFixture.fullscreen = Some 0%Z
     ∧ Menu.onKeyDown MenuFixture.menu "spacebears" MenuFixture.fullscreen "ArrowUp"
       = Some (Focus MenuFixture.about))
  ∧ (nextSibling Fixture.tree Fixture.ti2 = None
     ∧ TreeItem.onKeyDown Fixture.tree Fixture.ti2 "ArrowDown" ≠ Focus Fixture.ti1).
Proof.
  split; [|split].
  - split; [reflexivity|]. split; [reflexivity|].
    apply (proj1 menu_wraps_tree_does_not MenuFixture.menu "spacebears"
             MenuFixture.about [0; 1]
             (MenuFixture.fullscreen, MenuFixture.button "fullscreen") []);
      reflexivity.
  - split; [reflexivity|]. split; [reflexivity|].
    apply (proj1 (proj2 menu_wraps_tree_does_not) MenuFixture.menu "spacebears"
             MenuFixture.fullscreen [2; 1]
             (MenuFixture.about, MenuFixture.a "about") []);
      reflexivity.
  - split; [reflexivity|].
    apply (proj1 (proj2 (proj2 menu_wraps_tree_does_not)) Fixture.tree 1 [] 0).
    reflexivity.
Defined.

(** ** Validation of the children of a group *)

(** C10, as stated, fails on a well-formed group around an item whose own
    group holds a raw <li>: the inner group shows the error state, and the
    outer group is rendered around it with both of its items. *)
Lemma nested_error_inside_rendered_tree :
  ¬ Spec.construction_fails Fixture.nested_invalid.
Proof.
  intros H. unfold Spec.construction_fails in H.
  specialize (H eq_refl). vm_compute in H. discriminate H.
Qed.

Section ShapeFacts.

Lemma readable_items (kids : list Mount.element) :
  ∀ types,
    TreeGroup.readable (map Mount.child_of kids) = Some types →
    Spec.invalid_children types = [] →
    Forall (λ k, ∃ id below, k = Mount.TreeItemEl id below) kids
    ∧ filter (λ t, TreeGroup.is_TreeItem t = true) types = types
    ∧ length types = length kids.
Proof.
  unfold Spec.invalid_children.
  induction kids as [|k kids IH]; intros types Hread Hnone; simpl in Hread.
  - injection Hread as <-. repeat split. constructor.
  - destruct (Mount.child_of k) as [type| |] eqn:Hk; try discriminate.
    destruct (TreeGroup.readable (map Mount.child_of kids)) as [rest|];
      [|discriminate].
    injection Hread as <-. rewrite filter_cons in Hnone.
    destruct (TreeGroup.is_TreeItem type) eqn:E;
      case_decide; try discriminate; try congruence.
    destruct (IH rest eq_refl Hnone) as (Hall & Hfilter & Hlen).
    split; [|split].
    + constructor; [|exact Hall].
      destruct k as [id below| | | | |]; simpl in Hk; try discriminate;
        injection Hk as <-; try discriminate; eauto.
    + rewrite filter_cons. case_decide; [|congruence]. now rewrite Hfilter.
    + simpl. now rewrite Hlen.
Qed.

Lemma mount_items (kids : list Mount.element) :
  Forall (λ k, ∃ id below, k = Mount.TreeItemEl id below) kids →
  forallb Shape.is_li_treeitem (flat_map Mount.mount kids) = true
  ∧ length (flat_map Mount.mount kids) = length kids.
Proof.
  induction 1 as [|k kids (id & below & ->) _ [IH1 IH2]]; [split; reflexivity|].
  simpl. rewrite IH1, IH2. split; reflexivity.
Qed.

(** What a group mounts to: nothing when its constructor throws, the error
    state when a child is not a TreeItem, its list otherwise. *)
Lemma mount_group (id : string) (expanded passed : option string)
      (kids : list Mount.element) :
  match TreeGroup.readable (map Mount.child_of kids) with
  | None =>
      TreeGroup.construct id expanded (map Mount.child_of kids) = None
      ∧ Mount.mount (Mount.TreeGroupEl id expanded passed kids) = []
  | Some types =>
      let this := TreeGroup.constructor (TreeGroup.Props id expanded types) in
      TreeGroup.construct id expanded (map Mount.child_of kids) = Some this
      ∧ length (TreeGroup.error this) = length (Spec.invalid_children types)
      ∧ Mount.mount (Mount.TreeGroupEl id expanded passed kids)
        = match Spec.invalid_children types with
          | [] => [ Element "ol" id (Some "group")
                      (TreeGroup.aria_expanded passed this)
                      OwnerTreeGroup (flat_map Mount.mount kids) ]
          | _ :: _ => Spec.error_state
          end
  end.
Proof.
  pose proof (construct_cases id expanded (map Mount.child_of kids)) as Hc.
  destruct (TreeGroup.readable (map Mount.child_of kids)) as [types|].
  - pose proof (constructor_error_length (TreeGroup.Props id expanded types)) as Hlen.
    change (TreeGroup.props_children (TreeGroup.Props id expanded types))
      with types in Hlen.
    fold (Spec.invalid_children types) in Hlen.
    cbv zeta. split; [exact Hc|]. split; [exact Hlen|].
    simpl. rewrite Hc. unfold TreeGroup.render.
    destruct (TreeGroup.error _), (Spec.invalid_children types);
      simpl in Hlen; try discriminate; reflexivity.
  - split; [exact Hc|]. simpl. now rewrite Hc.
Qed.

Lemma groups_hold_items_at (d : node) :
  Shape.groups_hold_items d = true →
  ∀ p n, at_path d p = Some n → Shape.groups_hold_items n = true.
Proof.
  intros Hd p. induction p as [|i q IH]; intros n Hn; simpl in Hn.
  - now injection Hn as <-.
  - destruct (at_path d q) as [m|]; [|discriminate]. simpl in Hn.
    specialize (IH m eq_refl). destruct m as [t j r a o kids]. simpl in *.
    apply andb_true_iff in IH as [_ Hkids].
    rewrite forallb_forall in Hkids. apply Hkids.
    apply list_elem_of_In, list_elem_of_lookup. eauto.
Qed.

End ShapeFacts.

(** C10, amended.  A group validates its direct children only.  Where the
    tree mounts, the group has recorded one error per direct child that is
    not a TreeItem; with at least one such child it renders the visible
    error state in place of its list, and with none it renders its list
    around whatever its children render, however those are built further
    down. *)
Theorem group_validation (id : string) (expanded passed : option string)
        (kids : list Mount.element) (nodes : list node) :
  Mount.mounted (Mount.TreeGroupEl id expanded passed kids) = Some nodes →
  ∃ types this,
    TreeGroup.readable (map Mount.child_of kids) = Some types
    ∧ TreeGroup.construct id expanded (map Mount.child_of kids) = Some this
    ∧ length (TreeGroup.error this) = length (Spec.invalid_children types)
    ∧ (0 < length (Spec.invalid_children types) → nodes = Spec.error_state)
    ∧ (length (Spec.invalid_children types) = 0 →
       nodes = [ Element "ol" id (Some "group") (TreeGroup.aria_expanded passed this)
                   OwnerTreeGroup (flat_map Mount.mount kids) ]).
Proof.
  unfold Mount.mounted. intros Hmounted.
  destruct (Mount.throws _) eqn:Hthrows; [discriminate|].
  assert (Hnodes : nodes = Mount.mount (Mount.TreeGroupEl id expanded passed kids))
    by congruence.
  subst nodes. clear Hmounted.
  pose proof (mount_group id expanded passed kids) as Hgroup.
  destruct (TreeGroup.readable (map Mount.child_of kids)) as [types|].
  - cbv zeta in Hgroup. destruct Hgroup as (Hc & Hlen & Hmount).
    exists types, (TreeGroup.constructor (TreeGroup.Props id expanded types)).
    split; [reflexivity|]. split; [exact Hc|]. split; [exact Hlen|].
    rewrite Hmount.
    destruct (Spec.invalid_children types); simpl; split; intros; auto; lia.
  - destruct Hgroup as [Hc _]. simpl in Hthrows. rewrite Hc in Hthrows.
    discriminate Hthrows.
Qed.

Lemma group_validation_witness :
  Mount.mounted
    (Mount.TreeGroupEl "" None None [Mount.HostEl "li" "" []; Mount.HostEl "li" "" []])
  = Some Spec.error_state
  ∧ ∃ this,
      TreeGroup.construct "" None
        (map Mount.child_of [Mount.HostEl "li" "" []; Mount.HostEl "li" "" []])
      = Some this
      ∧ length (TreeGroup.error this) = 2.
Proof.
  split; [reflexivity|].
  destruct (group_validation "" None None
              [Mount.HostEl "li" "" []; Mount.HostEl "li" "" []]
              Spec.error_state eq_refl)
    as (types & this & Hread & Hconstruct & Hlen & _).
  exists this. split; [exact Hconstruct|].
  injection Hread as <-. exact Hlen.
Defined.

(** * Further properties of the components *)

(** ** The shape of what TreeGroup and TreeItem render *)

(** X1.  Whatever elements are mounted, at every depth of the result the
    child nodes of an <ol> rendered by a TreeGroup are <li role='treeitem'>
    elements rendered by TreeItem, and nothing else: a group with any other
    child renders no <ol> at all. *)
Theorem mounted_groups_hold_items (e : Mount.element) :
  forallb Shape.groups_hold_items (Mount.mount e) = true.
Proof.
  induction e as [id kids IH | id expanded passed kids IH | tag id kids IH
                 | kids IH | |]
    using element_ind_children; try reflexivity.
  - simpl. now rewrite forallb_flat_map.
  - pose proof (mount_group id expanded passed kids) as Hgroup.
    destruct (TreeGroup.readable (map Mount.child_of kids)) as [types|] eqn:Hread.
    + cbv zeta in Hgroup. destruct Hgroup as (_ & _ & ->).
      destruct (Spec.invalid_children types) eqn:Hnone; [|reflexivity].
      destruct (readable_items kids types Hread Hnone) as (Hall & _).
      destruct (mount_items kids Hall) as [Hitems _].
      simpl. rewrite Hitems. simpl. now rewrite forallb_flat_map.
    + now destruct Hgroup as [_ ->].
  - simpl. now rewrite forallb_flat_map.
  - simpl. now apply forallb_flat_map.
Qed.

(** X2.  A group that renders its list has one child node per item it
    counted, and is expandable exactly when the list has two or more child
    nodes.  Its aria-expanded attribute is 'true' when the instance is
    expanded, 'false' when it is collapsed and the list has two or more
    child nodes, and otherwise whatever aria-expanded the caller passed
    among the props, if any. *)
Theorem rendered_group_counts (id : string) (expanded passed : option string)
        (kids : list Mount.element) (n : node) :
  Mount.mount (Mount.TreeGroupEl id expanded passed kids) = [n] →
  ∃ types,
    TreeGroup.readable (map Mount.child_of kids) = Some types
    ∧ length (childNodes n) = Spec.items_of (TreeGroup.Props id expanded types)
    ∧ TreeGroup.expandable (TreeGroup.constructor (TreeGroup.Props id expanded types))
      = (2 <=? length (childNodes n))
    ∧ (TreeGroup.expanded (TreeGroup.constructor (TreeGroup.Props id expanded types))
       = true →
       ariaExpanded n = Some "true")
    ∧ (TreeGroup.expanded (TreeGroup.constructor (TreeGroup.Props id expanded types))
       = false →
       ariaExpanded n = if 2 <=? length (childNodes n) then Some "false" else passed).
Proof.
  intros Hmount.
  pose proof (mount_group id expanded passed kids) as Hgroup.
  destruct (TreeGroup.readable (map Mount.child_of kids)) as [types|] eqn:Hread.
  - cbv zeta in Hgroup. destruct Hgroup as (_ & _ & Hol).
    rewrite Hmount in Hol.
    destruct (Spec.invalid_children types) eqn:Hnone; [|discriminate].
    injection Hol as ->. exists types. split; [reflexivity|].
    destruct (readable_items kids types Hread Hnone) as (Hall & Hfilter & Hlen).
    destruct (mount_items kids Hall) as [_ Hkids].
    unfold childNodes, ariaExpanded, TreeGroup.aria_expanded.
    rewrite constructor_expandable.
    assert (Hitems : Spec.items_of (TreeGroup.Props id expanded types) = length kids).
    { unfold Spec.items_of. simpl. now rewrite Hfilter. }
    rewrite Hkids, Hitems.
    split; [reflexivity|]. split; [|split].
    + destruct (length kids) as [|[|m]]; reflexivity.
    + intros ->. now rewrite orb_true_r.
    + intros ->. rewrite orb_false_r.
      destruct (length kids) as [|[|m]]; reflexivity.
  - destruct Hgroup as [_ Hnil]. rewrite Hmount in Hnil. discriminate.
Qed.

Lemma rendered_group_counts_witness :
  Mount.mount (Mount.TreeGroupEl "tg-focus" None None
                 [Mount.TreeItemEl "" []; Mount.TreeItemEl "" []])
  = [ Element "ol" "tg-focus" (Some "group") (Some "true") OwnerTreeGroup
        [TreeItem.render "" []; TreeItem.render "" []] ]
  ∧ ∃ types,
      TreeGroup.readable
        (map Mount.child_of [Mount.TreeItemEl "" []; Mount.TreeItemEl "" []])
      = Some types
      ∧ Spec.items_of (TreeGroup.Props "tg-focus" None types) = 2.
Proof.
  split; [reflexivity|].
  destruct (rendered_group_counts "tg-focus" None None
              [Mount.TreeItemEl "" []; Mount.TreeItemEl "" []] _ eq_refl)
    as (types & Hread & Hcount & _).
  exists types. split; [exact Hread|]. symmetry. exact Hcount.
Defined.

(** X3.  In a document where groups hold only items, ArrowRight on the
    <ol> of a group moves the focus to the group's first item whenever the
    group has a child node; on a group without child nodes the handler
    throws, after [expand] has run. *)
Theorem group_step_into (d : node) (g : path) (n : node) (this : TreeGroup.instance) :
  Shape.groups_hold_items d = true →
  at_path d g = Some n →
  own n = OwnerTreeGroup →
  TreeGroup.onKeyDown this d g "ArrowRight"
  = (TreeGroup.expand this,
     match childNodes n with
     | [] => Throw
     | _ :: _ => Focus (0 :: g)
     end).
Proof.
  intros Hd Hn Hown.
  change (TreeGroup.onKeyDown this d g "ArrowRight")
    with (TreeGroup.expand this, TreeGroup.stepInto d g).
  f_equal. unfold TreeGroup.stepInto, firstChild, exists_at. simpl. rewrite Hn. simpl.
  pose proof (groups_hold_items_at d Hd g n Hn) as Hshape.
  destruct n as [t i r a o kids]. simpl in *. subst o.
  destruct kids as [|k kids]; simpl; [reflexivity|].
  rewrite Hn. simpl.
  apply andb_true_iff in Hshape as [Hitems _]. simpl in Hitems.
  apply andb_true_iff in Hitems as [Hk _].
  destruct k as [t' i' r' a' [] kids']; simpl in *; try discriminate; reflexivity.
Qed.

Lemma group_step_into_witness :
  Shape.groups_hold_items Fixture.tree = true
  ∧ own <$> at_path Fixture.tree Fixture.tg1_ti2_tg1 = Some OwnerTreeGroup
  ∧ TreeGroup.onKeyDown (TreeGroup.constructor Fixture.focus_group) Fixture.tree
      Fixture.tg1_ti2_tg1 "ArrowRight"
    = (TreeGroup.constructor Fixture.focus_group, Focus Fixture.tg1_ti2_tg1_ti1).
Proof.
  split; [reflexivity|]. split; [reflexivity|].
  destruct (at_path Fixture.tree Fixture.tg1_ti2_tg1) as [n|] eqn:Hn; [|discriminate].
  assert (Hown : own n = OwnerTreeGroup) by (vm_compute in Hn; now injection Hn as <-).
  rewrite (group_step_into Fixture.tree Fixture.tg1_ti2_tg1 n _ eq_refl Hn Hown).
  vm_compute in Hn. injection Hn as <-. reflexivity.
Defined.

(** ** The state of a TreeGroup *)

Lemma validate_errors (cs : list TreeGroup.child_type) :
  ∀ index err items m,
    m ∈ (TreeGroup.validate index cs err items).1
    ↔ m ∈ err
      ∨ ∃ i type, cs !! i = Some type
                  ∧ TreeGroup.is_TreeItem type = false
                  ∧ m = TreeGroup.InvalidChild type (index + i + 1).
Proof.
  induction cs as [|type cs IH]; intros index err items m; simpl.
  - split; [auto|]. intros [H|(i & t & H & _)]; [exact H | discriminate H].
  - rewrite invalid_child.
    destruct (TreeGroup.is_TreeItem type) eqn:E; simpl; rewrite IH; clear IH.
    + split; (intros [H|(i & t & Hi & Ht & ->)]; [now left | right]).
      * exists (S i), t. repeat split; auto; f_equal; lia.
      * destruct i as [|i]; simpl in Hi; [congruence|].
        exists i, t. repeat split; auto; f_equal; lia.
    + rewrite elem_of_app, list_elem_of_singleton.
      split.
      * intros [[H| ->]|(i & t & Hi & Ht & ->)]; [now left | right..].
        -- exists 0, type. repeat split; auto; f_equal; lia.
        -- exists (S i), t. repeat split; auto; f_equal; lia.
      * intros [H|(i & t & Hi & Ht & ->)]; [now left; left|].
        destruct i as [|i]; simpl in Hi.
        -- injection Hi as <-. left; right. f_equal; lia.
        -- right. exists i, t. repeat split; auto; f_equal; lia.
Qed.

(** X4.  The errors a group records are exactly its children that are not
    TreeItems, each with its position counted from one: an entry for type
    [t] at position [i + 1] is recorded if and only if child [i] has type
    [t] and [t] is not TreeItem. *)
Theorem constructor_errors (p : TreeGroup.props) (m : TreeGroup.message) :
  m ∈ TreeGroup.error (TreeGroup.constructor p)
  ↔ ∃ i, TreeGroup.props_children p !! i = Some (TreeGroup.bad_type m)
         ∧ TreeGroup.is_TreeItem (TreeGroup.bad_type m) = false
         ∧ TreeGroup.position m = i + 1.
Proof.
  unfold TreeGroup.constructor.
  pose proof (validate_errors (TreeGroup.props_children p) 0 [] 0 m) as H.
  destruct (TreeGroup.validate 0 (TreeGroup.props_children p) [] 0) as [err items].
  simpl in *. rewrite H. split.
  - intros [Hin|(i & t & Hi & Ht & ->)]; [inversion Hin|]. simpl. eauto.
  - intros (i & Hi & Ht & Hp). right. exists i, (TreeGroup.bad_type m).
    destruct m as [t pos]. simpl in *. now subst.
Qed.

(** X5.  collapse and expand are idempotent, and on an expandable group
    that rendered its list (no child was rejected) each undoes the other:
    after collapse then expand the group is expanded, after expand then
    collapse it is collapsed, whatever state it started in. *)
Theorem collapse_expand_compose (this : TreeGroup.instance) (element : path) :
  (TreeGroup.collapse (TreeGroup.collapse this element).1 element).1
  = (TreeGroup.collapse this element).1
  ∧ TreeGroup.expand (TreeGroup.expand this) = TreeGroup.expand this
  ∧ (TreeGroup.error this = [] →
     TreeGroup.expandable this = true →
     TreeGroup.expanded (TreeGroup.expand (TreeGroup.collapse this element).1) = true
     ∧ TreeGroup.expanded (TreeGroup.collapse (TreeGroup.expand this) element).1 = false).
Proof.
  destruct this as [[|m err] [] []]; repeat split; reflexivity || discriminate.
Qed.

Lemma collapse_expand_compose_witness :
  TreeGroup.error Fixture.ti1_group_instance = []
  ∧ TreeGroup.expandable Fixture.ti1_group_instance = true
  ∧ TreeGroup.expanded
      (TreeGroup.expand (TreeGroup.collapse Fixture.ti1_group_instance [1; 0]).1) = true
  ∧ TreeGroup.expanded
      (TreeGroup.collapse (TreeGroup.expand Fixture.ti1_group_instance) [1; 0]).1 = false.
Proof.
  split; [reflexivity|]. split; [reflexivity|].
  exact (proj2 (proj2 (collapse_expand_compose Fixture.ti1_group_instance [1; 0]))
           eq_refl eq_refl).
Defined.

(** X6.  On a group that rendered its list (no child was rejected), a
    click or Enter takes the focus exactly when it collapses the group: the
    handler focuses the group's own <ol> if the group went from expanded to
    collapsed, and otherwise leaves the focus alone; it does not throw
    there. *)
Theorem toggle_focus (this : TreeGroup.instance) (element : path) :
  TreeGroup.error this = [] →
  ((TreeGroup.toggle this element).2 = Focus element
   ↔ TreeGroup.expanded this = true
     ∧ TreeGroup.expanded (TreeGroup.toggle this element).1 = false)
  ∧ ((TreeGroup.toggle this element).2 = Focus element
     ∨ (TreeGroup.toggle this element).2 = Stay)
  ∧ TreeGroup.onClick this element = TreeGroup.toggle this element
  ∧ ∀ d, TreeGroup.onKeyDown this d element "Enter" = TreeGroup.toggle this element.
Proof.
  destruct this as [err [] []]; simpl; intros ->; cbn; repeat split; auto;
    try (intros [? ?]); try discriminate; intuition discriminate.
Qed.

Lemma toggle_focus_witness :
  TreeGroup.error Fixture.ti1_group_instance = []
  ∧ (TreeGroup.toggle Fixture.ti1_group_instance Fixture.ti1_group).2
    = Focus Fixture.ti1_group.
Proof.
  split; [reflexivity|].
  apply (proj1 (toggle_focus Fixture.ti1_group_instance Fixture.ti1_group eq_refl)).
  split; reflexivity.
Defined.

(** ** Moves between Items and Group nodes *)

(** X7.  An Item's handler never calls focus on the Item itself: whatever
    the key, and whatever the document, the outcome is a focus call on
    another element, no call, or an exception. *)
Theorem item_never_refocuses_itself (d : node) (item : path) (key : string) :
  TreeItem.onKeyDown d item key ≠ Focus item.
Proof.
  assert (Hprev : TreeItem.previous d item ≠ Focus item).
  { intros Hfocus. destruct item as [|[|i] q].
    - discriminate Hfocus.
    - change (moveTo d (Some q) = Focus (0 :: q)) in Hfocus.
      apply moveTo_Focus in Hfocus as [Htarget _].
      injection Htarget as Hpath. apply (f_equal length) in Hpath.
      simpl in Hpath. lia.
    - change (moveTo d (Some (i :: q)) = Focus (S i :: q)) in Hfocus.
      apply moveTo_Focus in Hfocus as [Htarget _].
      injection Htarget as Hi. lia. }
  assert (Hclimb : moveTo d (Spec.owningItem item ≫= nextSibling d) ≠ Focus item).
  { intros Hfocus. apply moveTo_Focus in Hfocus as [Htarget _].
    unfold Spec.owningItem in Htarget.
    destruct item as [|i [|j owner]]; simpl in Htarget; try discriminate.
    apply nextSibling_inv in Htarget as (k & q & -> & Hpath).
    apply (f_equal length) in Hpath. simpl in Hpath. lia. }
  assert (Hsibling : ∀ s, nextSibling d item = Some s → moveTo d (Some s) ≠ Focus item).
  { intros s Hs Hfocus. apply moveTo_Focus in Hfocus as [Htarget _].
    injection Htarget as ->.
    apply nextSibling_inv in Hs as (k & q & Hitem & Hpath).
    rewrite Hitem in Hpath. injection Hpath. lia. }
  assert (Hgroup : ∀ g, Spec.childGroup d item = Some g → moveTo d (Some g) ≠ Focus item).
  { intros g Hg Hfocus. apply moveTo_Focus in Hfocus as [Htarget _].
    injection Htarget as ->.
    destruct (childGroup_Some _ _ _ Hg) as (_ & _ & _ & r & Hr & Hpath).
    apply (f_equal length) in Hpath. rewrite length_app in Hpath.
    destruct r; [congruence | simpl in Hpath; lia]. }
  assert (Hnext : TreeItem.next d item ≠ Focus item).
  { rewrite next_cases.
    destruct (nextSibling d item) as [s|] eqn:Hs,
             (Spec.childGroup d item) as [g|] eqn:Hg; eauto.
    destruct (Spec.isExpanded d g); eauto. }
  assert (Hinto : TreeItem.stepInto d item ≠ Focus item).
  { rewrite stepInto_cases. destruct (Spec.childGroup d item) as [g|] eqn:Hg; eauto. }
  unfold TreeItem.onKeyDown. repeat case_match; auto; discriminate.
Qed.

(** X8.  ArrowUp undoes ArrowDown between neighbouring Items: from the
    next sibling of an Item, ArrowUp moves the focus back to the Item; and
    from the previous sibling of an Item, ArrowDown moves the focus to the
    Item unless that sibling has a collapsed child group. *)
Theorem up_down_between_siblings (d : node) (item : path) :
  Spec.takes_focus d item = true →
  (∀ s, nextSibling d item = Some s →
        TreeItem.onKeyDown d s "ArrowUp" = Focus item)
  ∧ (∀ s, previousSibling item = Some s →
          Spec.childGroup d s = None ∨ Spec.usable_child d s = true →
          TreeItem.onKeyDown d s "ArrowDown" = Focus item).
Proof.
  intros Hitem. split.
  - intros s Hs. apply nextSibling_inv in Hs as (i & q & -> & ->).
    rewrite onKeyDown_ArrowUp. unfold TreeItem.previous. simpl previousSibling.
    now apply moveTo_Some.
  - intros s Hs Hcase.
    destruct item as [|[|i] q]; simpl in Hs; try discriminate.
    injection Hs as <-.
    assert (Hnext : nextSibling d (i :: q) = Some (S i :: q)).
    { simpl. unfold exists_at. unfold Spec.takes_focus in Hitem.
      now destruct (at_path d (S i :: q)). }
    rewrite onKeyDown_ArrowDown, next_cases, Hnext. unfold Spec.usable_child in Hcase.
    destruct (Spec.childGroup d (i :: q)) as [g|].
    + destruct Hcase as [Hcase| ->]; [discriminate|]. now apply moveTo_Some.
    + now apply moveTo_Some.
Qed.

Lemma up_down_between_siblings_witness :
  Spec.takes_focus Fixture.tree Fixture.tg1_ti3 = true
  ∧ nextSibling Fixture.tree Fixture.tg1_ti3 = Some Fixture.tg1_ti4
  ∧ TreeItem.onKeyDown Fixture.tree Fixture.tg1_ti4 "ArrowUp" = Focus Fixture.tg1_ti3.
Proof.
  split; [reflexivity|]. split; [reflexivity|].
  apply (proj1 (up_down_between_siblings Fixture.tree Fixture.tg1_ti3 eq_refl)).
  reflexivity.
Defined.

(** X9.  ArrowRight and ArrowDown on an Item can only differ when the
    Item has both a next sibling and an expanded child group; everywhere
    else the two keys do the same. *)
Theorem right_differs_from_down (d : node) (item : path) :
  TreeItem.onKeyDown d item "ArrowRight" ≠ TreeItem.onKeyDown d item "ArrowDown" →
  ∃ s g, nextSibling d item = Some s
         ∧ Spec.childGroup d item = Some g
         ∧ Spec.isExpanded d g = true.
Proof.
  rewrite onKeyDown_ArrowRight, onKeyDown_ArrowDown, stepInto_cases, next_cases.
  intros Hne.
  destruct (nextSibling d item) as [s|], (Spec.childGroup d item) as [g|];
    try (exfalso; apply Hne; reflexivity).
  destruct (Spec.isExpanded d g) eqn:Hexpanded;
    [exists s, g; auto | exfalso; apply Hne; reflexivity].
Qed.

Lemma right_differs_from_down_witness :
  TreeItem.onKeyDown Fixture.tree Fixture.ti1 "ArrowRight"
  ≠ TreeItem.onKeyDown Fixture.tree Fixture.ti1 "ArrowDown"
  ∧ ∃ s g, nextSibling Fixture.tree Fixture.ti1 = Some s
           ∧ Spec.childGroup Fixture.tree Fixture.ti1 = Some g
           ∧ Spec.isExpanded Fixture.tree g = true.
Proof.
  assert (Hne : TreeItem.onKeyDown Fixture.tree Fixture.ti1 "ArrowRight"
                ≠ TreeItem.onKeyDown Fixture.tree Fixture.ti1 "ArrowDown")
    by (vm_compute; discriminate).
  split; [exact Hne|].
  exact (right_differs_from_down Fixture.tree Fixture.ti1 Hne).
Defined.

(** X10.  Round trip between an Item and its group: when the group is
    the first nested list of the Item and a direct child of it, ArrowRight
    on the Item moves the focus to the Group node and ArrowUp on the Group
    node moves it back to the Item, leaving the state of the group as it
    was. *)
Theorem item_group_round_trip (d : node) (item g : path) (this : TreeGroup.instance) :
  Spec.childGroup d item = Some g →
  parentNode g = Some item →
  Spec.takes_focus d item = true →
  Spec.takes_focus d g = true →
  TreeItem.onKeyDown d item "ArrowRight" = Focus g
  ∧ TreeGroup.onKeyDown this d g "ArrowUp" = (this, Focus item).
Proof.
  intros Hg Hparent Hitem Hgroup. split.
  - rewrite onKeyDown_ArrowRight, stepInto_cases, Hg. now apply moveTo_Some.
  - change (TreeGroup.onKeyDown this d g "ArrowUp")
      with (this, TreeGroup.previous d g).
    destruct g as [|i parent]; [discriminate|]. injection Hparent as ->.
    unfold TreeGroup.previous, moveTo_parentNode. f_equal. now apply moveTo_Some.
Qed.

Lemma item_group_round_trip_witness :
  Spec.childGroup Fixture.tree Fixture.ti1 = Some Fixture.ti1_group
  ∧ parentNode Fixture.ti1_group = Some Fixture.ti1
  ∧ TreeItem.onKeyDown Fixture.tree Fixture.ti1 "ArrowRight" = Focus Fixture.ti1_group
  ∧ TreeGroup.onKeyDown Fixture.ti1_group_instance Fixture.tree Fixture.ti1_group
      "ArrowUp" = (Fixture.ti1_group_instance, Focus Fixture.ti1).
Proof.
  split; [reflexivity|]. split; [reflexivity|].
  exact (item_group_round_trip Fixture.tree Fixture.ti1 Fixture.ti1_group
           Fixture.ti1_group_instance eq_refl eq_refl eq_refl eq_refl).
Defined.

(** ** Menu: the active entry and [select] *)

Section MenuFacts.

Lemma items_lookup (d : node) (id : string) (i : nat) (item : path) :
  Menu.items d id !! i = Some item →
  ∃ list, getElementById d id = Some list ∧ item = i :: list.
Proof.
  unfold Menu.items.
  destruct (getElementById d id) as [list|]; [|discriminate].
  destruct (at_path d list) as [n|]; [|discriminate].
  rewrite list_lookup_imap. destruct (childNodes n !! i); [|discriminate].
  simpl. intros [= <-]. eauto.
Qed.

(** Two entries of one list cannot both contain the same element. *)
Lemma contains_entry_unique (list a : path) (i j : nat) :
  contains (i :: list) a = true → contains (j :: list) a = true → i = j.
Proof.
  unfold contains. intros Hi Hj.
  apply bool_decide_eq_true_1 in Hi. apply bool_decide_eq_true_1 in Hj.
  simpl in *. congruence.
Qed.

Lemma activeIndex_loop_Some (items : list path) (a : path) (n : nat) (z : Z) :
  Menu.activeIndex_loop items a n = Some z →
  ∃ i item, z = Z.of_nat i ∧ i < n ∧ items !! i = Some item ∧ contains item a = true.
Proof.
  induction n as [|n IH]; simpl; [discriminate|].
  destruct (items !! n) as [item|] eqn:Hn; [|discriminate].
  destruct (contains item a) eqn:Hc.
  - intros [= <-]. exists n, item. auto.
  - intros H. destruct (IH H) as (i & item' & ? & ? & ? & ?).
    exists i, item'. repeat split; auto.
Qed.

Lemma activeIndex_loop_finds (items : list path) (a : path) (n i : nat) (item : path) :
  n ≤ length items → i < n →
  items !! i = Some item → contains item a = true →
  is_Some (Menu.activeIndex_loop items a n).
Proof.
  induction n as [|n IH]; intros Hn Hi Hitem Hc; [lia|]. simpl.
  destruct (lookup_lt_is_Some_2 items n) as [item' Hn']; [lia|].
  rewrite Hn'. destruct (contains item' a) eqn:Hc'; [eauto|].
  apply IH; auto; [lia|].
  destruct (decide (i = n)) as [->|]; [congruence | lia].
Qed.

(** The active index is the index of the one entry that contains the
    focused element. *)
Lemma activeIndex_spec (d : node) (id : string) (a : path) (z : Z) :
  Menu.activeIndex d id a = Some z
  ↔ ∃ i item, z = Z.of_nat i ∧ Menu.items d id !! i = Some item
              ∧ contains item a = true.
Proof.
  unfold Menu.activeIndex. split.
  - intros H. destruct (activeIndex_loop_Some _ _ _ _ H) as (i & item & ? & ? & ? & ?).
    eauto.
  - intros (i & item & -> & Hi & Hc).
    destruct (activeIndex_loop_finds (Menu.items d id) a (length (Menu.items d id))
                i item) as [z Hz]; auto.
    { eapply lookup_lt_Some; eauto. }
    rewrite Hz. f_equal.
    destruct (activeIndex_loop_Some _ _ _ _ Hz) as (j & item' & -> & _ & Hj & Hc').
    destruct (items_lookup _ _ _ _ Hi) as (list & Hlist & ->).
    destruct (items_lookup _ _ _ _ Hj) as (list' & Hlist' & ->).
    assert (list' = list) as -> by congruence.
    f_equal. eapply contains_entry_unique; eauto.
Qed.

Lemma selected_index_range (len : nat) (ndx : Z) :
  0 < len →
  (0 ≤ MenuParts.selected_index len ndx < Z.of_nat len)%Z.
Proof.
  intros Hlen. unfold MenuParts.selected_index.
  destruct (ndx <? 0)%Z eqn:E1; [lia|].
  destruct (ndx >? Z.of_nat len - 1)%Z eqn:E2; [lia|].
  apply Z.ltb_ge in E1. rewrite Z.gtb_ltb in E2. apply Z.ltb_ge in E2. lia.
Qed.

(** On a menu with entries that all hold a control, [select] focuses the
    first control of the entry it computes, and [activeIndex] then reads
    that entry back. *)
Lemma select_lands (d : node) (id : string) (ndx : Z) :
  MenuParts.entries_have_controls d id →
  0 < length (Menu.items d id) →
  ∃ q, Menu.select d id ndx = Focus q
       ∧ Menu.activeIndex d id q
         = Some (MenuParts.selected_index (length (Menu.items d id)) ndx).
Proof.
  intros Hwf Hlen.
  pose proof (selected_index_range _ ndx Hlen) as Hrange.
  unfold Menu.select.
  change (if (ndx <? 0)%Z then (Z.of_nat (length (Menu.items d id)) - 1)%Z
          else if (ndx >? Z.of_nat (length (Menu.items d id)) - 1)%Z then 0%Z else ndx)
    with (MenuParts.selected_index (length (Menu.items d id)) ndx).
  set (z := MenuParts.selected_index (length (Menu.items d id)) ndx) in *.
  unfold Menu.item_at. replace (z <? 0)%Z with false by (symmetry; apply Z.ltb_ge; lia).
  destruct (lookup_lt_is_Some_2 (Menu.items d id) (Z.to_nat z)) as [item Hitem]; [lia|].
  rewrite Hitem. unfold Menu.focus_control.
  destruct (Menu.querySelectorAll_a_button d item) as [|c rest] eqn:Hc.
  { exfalso. apply (Hwf item); [|exact Hc]. apply list_elem_of_lookup. eauto. }
  exists c.1. split; [reflexivity|].
  apply activeIndex_spec. exists (Z.to_nat z), item.
  split; [lia|]. split; [exact Hitem|].
  apply (querySelectorAll_a_button_below d). rewrite Hc. apply list_elem_of_here.
Qed.

End MenuFacts.

(** X11.  The active index of a menu is the index of the one entry that
    contains the focused element: [activeIndex] returns [i] exactly when
    entry [i] exists and contains the element, and returns undefined exactly
    when no entry contains it. *)
Theorem activeIndex_is_containing_entry (d : node) (id : string) (a : path) :
  (∀ z, Menu.activeIndex d id a = Some z
        ↔ ∃ i item, z = Z.of_nat i ∧ Menu.items d id !! i = Some item
                    ∧ contains item a = true)
  ∧ (Menu.activeIndex d id a = None
     ↔ ∀ item, item ∈ Menu.items d id → contains item a = false).
Proof.
  split; [intros z; apply activeIndex_spec|]. split.
  - intros Hnone item Hin. destruct (contains item a) eqn:Hc; [|reflexivity].
    apply list_elem_of_lookup in Hin as [i Hi].
    assert (H : Menu.activeIndex d id a = Some (Z.of_nat i))
      by (apply activeIndex_spec; eauto).
    congruence.
  - intros Hall. destruct (Menu.activeIndex d id a) as [z|] eqn:Hz; [|reflexivity].
    apply activeIndex_spec in Hz as (i & item & _ & Hi & Hc).
    rewrite (Hall item) in Hc; [discriminate|]. apply list_elem_of_lookup. eauto.
Qed.

(** X12.  On a menu that is not empty and whose entries all hold a link or
    button, [select] never throws, whatever index it is given: it focuses a
    control inside an entry whose index lies within the list, the last entry
    for a negative index and the first for an index past the end, and
    [activeIndex] afterwards returns that index. *)
Theorem select_round_trip (d : node) (id : string) (ndx : Z) :
  MenuParts.entries_have_controls d id →
  0 < length (Menu.items d id) →
  ∃ q, Menu.select d id ndx = Focus q
       ∧ Menu.activeIndex d id q
         = Some (MenuParts.selected_index (length (Menu.items d id)) ndx)
       ∧ (0 ≤ MenuParts.selected_index (length (Menu.items d id)) ndx
          < Z.of_nat (length (Menu.items d id)))%Z
       ∧ ((ndx < 0)%Z →
          MenuParts.selected_index (length (Menu.items d id)) ndx
          = (Z.of_nat (length (Menu.items d id)) - 1)%Z)
       ∧ ((Z.of_nat (length (Menu.items d id)) ≤ ndx)%Z →
          MenuParts.selected_index (length (Menu.items d id)) ndx = 0%Z)
       ∧ ((0 ≤ ndx < Z.of_nat (length (Menu.items d id)))%Z →
          MenuParts.selected_index (length (Menu.items d id)) ndx = ndx).
Proof.
  intros Hwf Hlen. destruct (select_lands d id ndx Hwf Hlen) as (q & Hq & Hactive).
  exists q. split; [exact Hq|]. split; [exact Hactive|].
  split; [now apply selected_index_range|].
  unfold MenuParts.selected_index.
  repeat split; intros Hndx.
  - replace (ndx <? 0)%Z with true by (symmetry; apply Z.ltb_lt; lia). reflexivity.
  - replace (ndx <? 0)%Z with false by (symmetry; apply Z.ltb_ge; lia).
    replace (ndx >? Z.of_nat (length (Menu.items d id)) - 1)%Z with true
      by (symmetry; rewrite Z.gtb_ltb; apply Z.ltb_lt; lia).
    reflexivity.
  - replace (ndx <? 0)%Z with false by (symmetry; apply Z.ltb_ge; lia).
    replace (ndx >? Z.of_nat (length (Menu.items d id)) - 1)%Z with false
      by (symmetry; rewrite Z.gtb_ltb; apply Z.ltb_ge; lia).
    reflexivity.
Qed.

Lemma MenuFixture_items :
  Menu.items MenuFixture.menu "spacebears" = [[0; 1]; [1; 1]; [2; 1]].
Proof. reflexivity. Qed.

Lemma MenuFixture_controls : MenuParts.entries_have_controls MenuFixture.menu "spacebears".
Proof.
  intros item Hin. rewrite MenuFixture_items in Hin.
  repeat (apply elem_of_cons in Hin as [->|Hin]; [vm_compute; discriminate|]).
  inversion Hin.
Qed.

Lemma select_round_trip_witness :
  MenuParts.entries_have_controls MenuFixture.menu "spacebears"
  ∧ 0 < length (Menu.items MenuFixture.menu "spacebears")
  ∧ ∃ q, Menu.select MenuFixture.menu "spacebears" (-1) = Focus q
         ∧ Menu.activeIndex MenuFixture.menu "spacebears" q = Some 2%Z.
Proof.
  split; [exact MenuFixture_controls|].
  split; [rewrite MenuFixture_items; simpl; lia|].
  destruct (select_round_trip MenuFixture.menu "spacebears" (-1) MenuFixture_controls)
    as (q & Hq & Hactive & _).
  { rewrite MenuFixture_items. simpl. lia. }
  exists q. split; [exact Hq|]. exact Hactive.
Defined.

(** X13.  On a menu whose entries all hold a link or button, ArrowDown
    followed by ArrowUp, and ArrowUp followed by ArrowDown, bring the focus
    back into the entry it started in, also across the wrap at either end of
    the list. *)
Theorem next_prev_inverse (d : node) (id : string) (a : path) (z : Z) :
  MenuParts.entries_have_controls d id →
  Menu.activeIndex d id a = Some z →
  (∃ q q', Menu.next d id a = Focus q
           ∧ Menu.prev d id q = Focus q'
           ∧ Menu.activeIndex d id q' = Some z)
  ∧ (∃ q q', Menu.prev d id a = Focus q
             ∧ Menu.next d id q = Focus q'
             ∧ Menu.activeIndex d id q' = Some z).
Proof.
  intros Hwf Hactive.
  assert (Hz : (0 ≤ z < Z.of_nat (length (Menu.items d id)))%Z).
  { apply activeIndex_spec in Hactive as (i & item & -> & Hi & _).
    apply lookup_lt_Some in Hi. lia. }
  assert (Hlen : 0 < length (Menu.items d id)) by lia.
  split.
  - destruct (select_lands d id (z + 1) Hwf Hlen) as (q & Hq & Hq_active).
    destruct (select_lands d id
                (MenuParts.selected_index (length (Menu.items d id)) (z + 1) - 1)
                Hwf Hlen) as (q' & Hq' & Hq'_active).
    exists q, q'. unfold Menu.next, Menu.prev. rewrite Hactive, Hq_active.
    split; [exact Hq|]. split; [exact Hq'|].
    rewrite Hq'_active. f_equal. selected_index_cases.
  - destruct (select_lands d id (z - 1) Hwf Hlen) as (q & Hq & Hq_active).
    destruct (select_lands d id
                (MenuParts.selected_index (length (Menu.items d id)) (z - 1) + 1)
                Hwf Hlen) as (q' & Hq' & Hq'_active).
    exists q, q'. unfold Menu.next, Menu.prev. rewrite Hactive, Hq_active.
    split; [exact Hq|]. split; [exact Hq'|].
    rewrite Hq'_active. f_equal. selected_index_cases.
Qed.

Lemma next_prev_inverse_witness :
  Menu.activeIndex MenuFixture.menu "spacebears" MenuFixture.about = Some 2%Z
  ∧ ∃ q q', Menu.next MenuFixture.menu "spacebears" MenuFixture.about = Focus q
            ∧ Menu.prev MenuFixture.menu "spacebears" q = Focus q'
            ∧ Menu.activeIndex MenuFixture.menu "spacebears" q' = Some 2%Z.
Proof.
  split; [reflexivity|].
  exact (proj1 (next_prev_inverse MenuFixture.menu "spacebears" MenuFixture.about 2
                  MenuFixture_controls eq_refl)).
Defined.

Lemma empty_items_inactive (d : node) (id : string) (a : path) :
  Menu.items d id = [] → Menu.activeIndex d id a = None.
Proof. unfold Menu.activeIndex. now intros ->. Qed.

Lemma missing_list_no_items (d : node) (id : string) :
  getElementById d id = None → Menu.items d id = [].
Proof. unfold Menu.items. now intros ->. Qed.

(** X14.  A menu without entries (its list element has no child nodes, or
    is missing from the document) ignores the arrow keys, Home, End and
    type-ahead: no handler moves the focus and none throws, although
    [select] itself would throw on such a menu for every index. *)
Theorem empty_menu_ignores_keys (d : node) (id : string) (a : path) :
  Menu.items d id = [] →
  Menu.onKeyDown d id a "ArrowDown" = Some Stay
  ∧ Menu.onKeyDown d id a "ArrowUp" = Some Stay
  ∧ Menu.onKeyDown d id a "ArrowLeft" = Some Stay
  ∧ Menu.onKeyDown d id a "ArrowRight" = Some Stay
  ∧ Menu.onKeyDown d id a "Home" = Some Stay
  ∧ Menu.onKeyDown d id a "End" = Some Stay
  ∧ (∀ textContent test buffer key,
       MenuParts.search textContent test buffer d id a key = ("", Stay))
  ∧ (∀ ndx, Menu.select d id ndx = Throw).
Proof.
  intros Hempty. pose proof (empty_items_inactive d id a Hempty) as Hinactive.
  assert (Hnext : Menu.next d id a = Stay) by (unfold Menu.next; now rewrite Hinactive).
  assert (Hprev : Menu.prev d id a = Stay) by (unfold Menu.prev; now rewrite Hinactive).
  assert (Hfirst : Menu.first d id = Stay) by (unfold Menu.first; now rewrite Hempty).
  assert (Hlast : Menu.last d id = Stay) by (unfold Menu.last; now rewrite Hempty).
  change (Menu.onKeyDown d id a "ArrowDown") with (Some (Menu.next d id a)).
  change (Menu.onKeyDown d id a "ArrowRight") with (Some (Menu.next d id a)).
  change (Menu.onKeyDown d id a "ArrowUp") with (Some (Menu.prev d id a)).
  change (Menu.onKeyDown d id a "ArrowLeft") with (Some (Menu.prev d id a)).
  change (Menu.onKeyDown d id a "Home") with (Some (Menu.first d id)).
  change (Menu.onKeyDown d id a "End") with (Some (Menu.last d id)).
  rewrite Hnext, Hprev, Hfirst, Hlast. repeat (split; [reflexivity|]).
  split.
  - intros textContent test buffer key. unfold MenuParts.search. now rewrite Hempty.
  - intros ndx. unfold Menu.select, Menu.item_at. rewrite Hempty.
    rewrite lookup_nil. now destruct (_ <? 0)%Z.
Qed.

Lemma empty_menu_ignores_keys_witness :
  Menu.items MenuFixture.menu "missing" = []
  ∧ Menu.onKeyDown MenuFixture.menu "missing" MenuFixture.about "ArrowDown" = Some Stay.
Proof.
  split; [apply missing_list_no_items; reflexivity|].
  exact (proj1 (empty_menu_ignores_keys MenuFixture.menu "missing" MenuFixture.about
                  (missing_list_no_items MenuFixture.menu "missing" eq_refl))).
Defined.

(** ** SubMenu: ArrowLeft and ArrowRight *)

(** X15.  In a SubMenu whose entries all hold a link or button, with the
    focus in one of the entries, ArrowRight and ArrowLeft do not wrap: from
    the last entry ArrowRight, and from the first entry ArrowLeft, hand the
    focus to the controller button; from any other entry they move one entry
    on or back.  Neither key changes [state.expanded], and on the controller
    itself both are left to bubble. *)
Theorem submenu_left_right (d : node) (id : string) (expanded : bool)
        (target : path) (z : Z) :
  MenuParts.entries_have_controls d id →
  Some target ≠ SubMenu.controller d id →
  Menu.activeIndex d id target = Some z →
  (SubMenuParts.onArrowRight expanded d id target
   = Some (expanded,
           if (z =? Z.of_nat (length (Menu.items d id)) - 1)%Z
           then SubMenuParts.focus d id
           else Menu.select d id (z + 1))
   ∧ ((z < Z.of_nat (length (Menu.items d id)) - 1)%Z →
      ∃ q, Menu.select d id (z + 1) = Focus q
           ∧ Menu.activeIndex d id q = Some (z + 1)%Z))
  ∧ (SubMenuParts.onArrowLeft expanded d id target
     = Some (expanded,
             if (z =? 0)%Z then SubMenuParts.focus d id else Menu.select d id (z - 1))
     ∧ ((0 < z)%Z →
        ∃ q, Menu.select d id (z - 1) = Focus q
             ∧ Menu.activeIndex d id q = Some (z - 1)%Z))
  ∧ (∀ controller, SubMenu.controller d id = Some controller →
       SubMenuParts.onArrowRight expanded d id controller = None
       ∧ SubMenuParts.onArrowLeft expanded d id controller = None).
Proof.
  intros Hwf Hne Hactive.
  assert (Hz : (0 ≤ z < Z.of_nat (length (Menu.items d id)))%Z).
  { apply activeIndex_spec in Hactive as (i & item & -> & Hi & _).
    apply lookup_lt_Some in Hi. lia. }
  assert (Hlen : 0 < length (Menu.items d id)) by lia.
  split; [|split].
  - split.
    + unfold SubMenuParts.onArrowRight.
      rewrite bool_decide_eq_false_2 by exact Hne. rewrite Hactive.
      destruct (Z.eqb_spec z (Z.of_nat (length (Menu.items d id)) - 1)) as [->|Hlast].
      * now rewrite bool_decide_eq_false_2 by (intros H; now apply H).
      * rewrite bool_decide_eq_true_2 by congruence.
        unfold SubMenu.next, Menu.next. now rewrite Hactive.
    + intros Hlt. destruct (select_lands d id (z + 1) Hwf Hlen) as (q & Hq & Hq_active).
      exists q. split; [exact Hq|]. rewrite Hq_active. f_equal. selected_index_cases.
  - split.
    + unfold SubMenuParts.onArrowLeft.
      rewrite bool_decide_eq_false_2 by exact Hne. rewrite Hactive.
      destruct (z =? 0)%Z; [reflexivity|].
      unfold SubMenu.prev, Menu.prev. now rewrite Hactive.
    + intros Hlt. destruct (select_lands d id (z - 1) Hwf Hlen) as (q & Hq & Hq_active).
      exists q. split; [exact Hq|]. rewrite Hq_active. f_equal. selected_index_cases.
  - intros controller Hc. unfold SubMenuParts.onArrowRight, SubMenuParts.onArrowLeft.
    now rewrite !bool_decide_eq_true_2 by (now rewrite Hc).
Qed.

Lemma MenuFixture_sub_items :
  Menu.items MenuFixture.menu "sub" = [[0; 1; 1; 1]; [1; 1; 1; 1]].
Proof. reflexivity. Qed.

Lemma MenuFixture_sub_controls : MenuParts.entries_have_controls MenuFixture.menu "sub".
Proof.
  intros item Hin. rewrite MenuFixture_sub_items in Hin.
  repeat (apply elem_of_cons in Hin as [->|Hin]; [vm_compute; discriminate|]).
  inversion Hin.
Qed.

Lemma submenu_left_right_witness :
  Some MenuFixture.spacebear2 ≠ SubMenu.controller MenuFixture.menu "sub"
  ∧ Menu.activeIndex MenuFixture.menu "sub" MenuFixture.spacebear2 = Some 1%Z
  ∧ SubMenuParts.onArrowRight true MenuFixture.menu "sub" MenuFixture.spacebear2
    = Some (true, Focus MenuFixture.sub_controller).
Proof.
  assert (Hne : Some MenuFixture.spacebear2 ≠ SubMenu.controller MenuFixture.menu "sub")
    by (vm_compute; discriminate).
  split; [exact Hne|]. split; [reflexivity|].
  exact (proj1 (proj1 (submenu_left_right MenuFixture.menu "sub" true
                         MenuFixture.spacebear2 1 MenuFixture_sub_controls Hne eq_refl))).
Defined.

(** ** Type-ahead search *)

Section SearchFacts.
Variable textContent : path → string.
Variable test : string → string → bool.

Lemma search_loop_Some (items : list path) (pattern : string) (fuel : nat) :
  ∀ i k,
    MenuParts.search_loop textContent test items pattern fuel i = Some k →
    i ≤ k
    ∧ (∃ item, items !! k = Some item ∧ test pattern (textContent item) = true)
    ∧ ∀ j item, i ≤ j < k → items !! j = Some item →
                test pattern (textContent item) = false.
Proof.
  induction fuel as [|fuel IH]; intros i k; simpl; [discriminate|].
  destruct (items !! i) as [item|] eqn:Hi; [|discriminate].
  destruct (test pattern (textContent item)) eqn:Ht.
  - intros [= <-]. split; [lia|]. split; [eauto|]. intros j item' Hj. lia.
  - intros H. destruct (IH _ _ H) as (Hle & Hmatch & Hfirst).
    split; [lia|]. split; [exact Hmatch|].
    intros j item' Hj Hitem'. destruct (decide (j = i)) as [->|Hne].
    + congruence.
    + apply (Hfirst j); [lia | exact Hitem'].
Qed.

Lemma search_loop_None (items : list path) (pattern : string) (fuel : nat) :
  ∀ i,
    length items ≤ i + fuel →
    MenuParts.search_loop textContent test items pattern fuel i = None →
    ∀ j item, i ≤ j → items !! j = Some item →
              test pattern (textContent item) = false.
Proof.
  induction fuel as [|fuel IH]; intros i Hfuel; simpl.
  - intros _ j item Hj Hitem. apply lookup_lt_Some in Hitem. lia.
  - destruct (items !! i) as [item|] eqn:Hi.
    + destruct (test pattern (textContent item)) eqn:Ht; [discriminate|].
      intros H j item' Hj Hitem'. destruct (decide (j = i)) as [->|Hne].
      * congruence.
      * apply (IH (S i)) with (j := j); [lia | exact H | lia | exact Hitem'].
    + intros _ j item Hj Hitem.
      apply lookup_ge_None in Hi. apply lookup_lt_Some in Hitem. lia.
Qed.

End SearchFacts.

(** X16.  Type-ahead looks forward only.  On a menu whose entries all hold
    a link or button, [search] either finds the first entry, from the active
    one on, whose text the pattern matches, moves the focus into that entry
    and keeps the pattern as the buffer; or, when no entry from the active
    one on matches, it clears the buffer and leaves the focus alone, even if
    an earlier entry would match. *)
Theorem search_looks_forward (textContent : path → string)
        (test : string → string → bool)
        (buffer : string) (d : node) (id : string) (a : path) (key : string) :
  MenuParts.entries_have_controls d id →
  (∃ k item q,
     MenuParts.search textContent test buffer d id a key
     = (String.append buffer key, Focus q)
     ∧ MenuParts.start_index d id a ≤ k
     ∧ Menu.items d id !! k = Some item
     ∧ test (String.append buffer key) (textContent item) = true
     ∧ Menu.activeIndex d id q = Some (Z.of_nat k)
     ∧ ∀ j item', MenuParts.start_index d id a ≤ j < k →
                  Menu.items d id !! j = Some item' →
                  test (String.append buffer key) (textContent item') = false)
  ∨ (MenuParts.search textContent test buffer d id a key = ("", Stay)
     ∧ ∀ j item', MenuParts.start_index d id a ≤ j →
                  Menu.items d id !! j = Some item' →
                  test (String.append buffer key) (textContent item') = false).
Proof.
  intros Hwf. unfold MenuParts.search.
  destruct (MenuParts.search_loop textContent test (Menu.items d id)
              (String.append buffer key) (length (Menu.items d id))
              (MenuParts.start_index d id a)) as [k|] eqn:Hloop.
  - left. destruct (search_loop_Some _ _ _ _ _ _ _ Hloop)
      as (Hle & (item & Hitem & Hmatch) & Hfirst).
    assert (Hk : k < length (Menu.items d id)) by (eapply lookup_lt_Some; eauto).
    destruct (select_lands d id (Z.of_nat k) Hwf) as (q & Hq & Hactive); [lia|].
    exists k, item, q. rewrite Hq. repeat split; auto.
    rewrite Hactive. f_equal. selected_index_cases.
  - right. split; [reflexivity|].
    refine (search_loop_None _ _ _ _ _ _ _ Hloop). lia.
Qed.

Lemma search_looks_forward_witness :
  MenuParts.entries_have_controls MenuFixture.menu "spacebears"
  ∧ MenuParts.search MenuTexts.textContent MenuTexts.test "" MenuFixture.menu
      "spacebears" MenuFixture.fullscreen "a" = ("a", Focus MenuFixture.about)
  ∧ MenuParts.search MenuTexts.textContent MenuTexts.test "" MenuFixture.menu
      "spacebears" MenuFixture.about "u" = ("", Stay)
  ∧ ((∃ k item q,
        MenuParts.search MenuTexts.textContent MenuTexts.test "" MenuFixture.menu
          "spacebears" MenuFixture.about "u" = (String.append "" "u", Focus q)
        ∧ MenuParts.start_index MenuFixture.menu "spacebears" MenuFixture.about ≤ k
        ∧ Menu.items MenuFixture.menu "spacebears" !! k = Some item
        ∧ MenuTexts.test (String.append "" "u") (MenuTexts.textContent item) = true
        ∧ Menu.activeIndex MenuFixture.menu "spacebears" q = Some (Z.of_nat k)
        ∧ ∀ j item', MenuParts.start_index MenuFixture.menu "spacebears"
                       MenuFixture.about ≤ j < k →
                     Menu.items MenuFixture.menu "spacebears" !! j = Some item' →
                     MenuTexts.test (String.append "" "u")
                       (MenuTexts.textContent item') = false)
     ∨ (MenuParts.search MenuTexts.textContent MenuTexts.test "" MenuFixture.menu
          "spacebears" MenuFixture.about "u" = ("", Stay)
        ∧ ∀ j item', MenuParts.start_index MenuFixture.menu "spacebears"
                       MenuFixture.about ≤ j →
                     Menu.items MenuFixture.menu "spacebears" !! j = Some item' →
                     MenuTexts.test (String.append "" "u")
                       (MenuTexts.textContent item') = false)).
Proof.
  split; [exact MenuFixture_controls|]. split; [reflexivity|]. split; [reflexivity|].
  exact (search_looks_forward MenuTexts.textContent MenuTexts.test "" MenuFixture.menu
           "spacebears" MenuFixture.about "u" MenuFixture_controls).
Defined.

(** ** What MenuItem and SubMenu render *)

(** X17.  A MenuItem renders nothing exactly when its label is empty;
    otherwise it renders an entry whose first control is its own link (with
    an href) or button (without), and a SubMenu with a label and children
    renders an entry whose first control is its controller button.  Selecting
    such an entry therefore focuses that control and never throws. *)
Theorem rendered_entry_control :
  (∀ p, MenuItem.render p = None ↔ MenuItem.label p = "")
  ∧ (∀ p n d item,
       MenuItem.render p = Some n →
       at_path d item = Some n →
       Menu.focus_control d (Some item) = Focus (0 :: item)
       ∧ tagName <$> at_path d (0 :: item)
         = Some (if MenuItem.truthy (MenuItem.href p) then "a" else "button"))
  ∧ (∀ id label kids n d item,
       SubMenuParts.render id label (Some kids) = Some n →
       at_path d item = Some n →
       Menu.focus_control d (Some item) = Focus (0 :: item)
       ∧ Dom.id <$> at_path d (0 :: item) = Some (String.append id "-controller")).
Proof.
  split; [|split].
  - intros [label href current]. unfold MenuItem.render, MenuItem.truthy. simpl.
    destruct (String.eqb_spec label "") as [->|Hne]; simpl.
    + split; reflexivity.
    + destruct (negb (href =? "")%string); split; (discriminate || congruence).
  - intros [label href current] n d item Hrender Hat.
    unfold MenuItem.render in Hrender. simpl in *.
    unfold Menu.focus_control, Menu.querySelectorAll_a_button. rewrite Hat.
    destruct (MenuItem.truthy label); simpl in Hrender; [|discriminate].
    destruct (MenuItem.truthy href); injection Hrender as <-; split; reflexivity.
  - intros id label kids n d item Hrender Hat.
    unfold SubMenuParts.render in Hrender.
    destruct (MenuItem.truthy label); [|discriminate]. injection Hrender as <-.
    unfold Menu.focus_control, Menu.querySelectorAll_a_button. rewrite Hat.
    simpl. rewrite Hat. split; reflexivity.
Qed.

Lemma rendered_entry_control_witness :
  MenuItem.render (MenuItem.Props "Space Bear 1" "/spacebear1" false)
  = Some (MenuFixture.li [Element "a" "" None None OwnerOther []])
  ∧ Menu.focus_control (MenuFixture.li [Element "a" "" None None OwnerOther []]) (Some [])
    = Focus [0].
Proof.
  split; [reflexivity|].
  exact (proj1 (proj1 (proj2 rendered_entry_control)
                  (MenuItem.Props "Space Bear 1" "/spacebear1" false)
                  (MenuFixture.li [Element "a" "" None None OwnerOther []])
                  (MenuFixture.li [Element "a" "" None None OwnerOther []])
                  [] eq_refl eq_refl)).
Defined.

(** ** Home, End and repeated ArrowDown *)

(** X18.  On a menu that is not empty and whose entries all hold a link or
    button, Home focuses a control in the first entry and End one in the
    last entry.  In a SubMenu both keys also open the submenu, ArrowDown on
    the controller opens it and focuses the first entry, and Escape closes
    it and hands the focus to the controller. *)
Theorem home_end_escape (d : node) (id : string) (expanded : bool) :
  MenuParts.entries_have_controls d id →
  0 < length (Menu.items d id) →
  (∃ q, Menu.first d id = Focus q
        ∧ Menu.activeIndex d id q = Some 0%Z
        ∧ SubMenuParts.onHome expanded d id = (true, Focus q)
        ∧ (∀ controller, SubMenu.controller d id = Some controller →
             SubMenu.onArrowDown expanded d id controller = (true, Focus q)))
  ∧ (∃ q, Menu.last d id = Focus q
          ∧ Menu.activeIndex d id q
            = Some (Z.of_nat (length (Menu.items d id)) - 1)%Z
          ∧ SubMenuParts.onEnd expanded d id = (true, Focus q))
  ∧ (∀ controller, SubMenu.controller d id = Some controller →
       SubMenuParts.onEscape expanded d id = (false, Focus controller)).
Proof.
  intros Hwf Hlen.
  assert (Hfirst : Menu.first d id = Menu.select d id 0).
  { unfold Menu.first, Menu.select.
    replace (0 <? length (Menu.items d id)) with true
      by (symmetry; apply Nat.ltb_lt; lia).
    f_equal. f_equal. symmetry.
    fold (MenuParts.selected_index (length (Menu.items d id)) 0).
    selected_index_cases. }
  assert (Hlast : Menu.last d id
                  = Menu.select d id (Z.of_nat (length (Menu.items d id)) - 1)).
  { unfold Menu.last, Menu.select.
    replace (0 <? length (Menu.items d id)) with true
      by (symmetry; apply Nat.ltb_lt; lia).
    f_equal. f_equal. symmetry.
    fold (MenuParts.selected_index (length (Menu.items d id))
            (Z.of_nat (length (Menu.items d id)) - 1)).
    selected_index_cases. }
  split; [|split].
  - destruct (select_lands d id 0 Hwf Hlen) as (q & Hq & Hactive).
    exists q. rewrite Hfirst. split; [exact Hq|]. split.
    + rewrite Hactive. f_equal. selected_index_cases.
    + split.
      * unfold SubMenuParts.onHome, SubMenu.first. now rewrite Hfirst, Hq.
      * intros controller Hc. unfold SubMenu.onArrowDown, SubMenu.first.
        rewrite bool_decide_eq_true_2 by (now rewrite Hc). now rewrite Hfirst, Hq.
  - destruct (select_lands d id (Z.of_nat (length (Menu.items d id)) - 1) Hwf Hlen)
      as (q & Hq & Hactive).
    exists q. rewrite Hlast. split; [exact Hq|]. split.
    + rewrite Hactive. f_equal. selected_index_cases.
    + unfold SubMenuParts.onEnd, SubMenuParts.last. now rewrite Hlast, Hq.
  - intros controller Hc. unfold SubMenuParts.onEscape, SubMenuParts.focus.
    now rewrite Hc.
Qed.

Lemma home_end_escape_witness :
  MenuParts.entries_have_controls MenuFixture.menu "sub"
  ∧ 0 < length (Menu.items MenuFixture.menu "sub")
  ∧ SubMenuParts.onEscape true MenuFixture.menu "sub"
    = (false, Focus MenuFixture.sub_controller).
Proof.
  split; [exact MenuFixture_sub_controls|].
  assert (Hlen : 0 < length (Menu.items MenuFixture.menu "sub"))
    by (rewrite MenuFixture_sub_items; simpl; lia).
  split; [exact Hlen|].
  exact (proj2 (proj2 (home_end_escape MenuFixture.menu "sub" true
                         MenuFixture_sub_controls Hlen))
           MenuFixture.sub_controller eq_refl).
Defined.

Lemma next_lands (d : node) (id : string) (a : path) (z : Z) :
  MenuParts.entries_have_controls d id →
  Menu.activeIndex d id a = Some z →
  Menu.activeIndex d id (activeElement_after a (Menu.next d id a))
  = Some ((z + 1) mod Z.of_nat (length (Menu.items d id)))%Z.
Proof.
  intros Hwf Hactive.
  assert (Hz : (0 ≤ z < Z.of_nat (length (Menu.items d id)))%Z).
  { apply activeIndex_spec in Hactive as (i & item & -> & Hi & _).
    apply lookup_lt_Some in Hi. lia. }
  destruct (select_lands d id (z + 1) Hwf) as (q & Hq & Hq_active); [lia|].
  unfold Menu.next. rewrite Hactive, Hq. simpl. rewrite Hq_active. f_equal.
  destruct (decide (z + 1 = Z.of_nat (length (Menu.items d id)))%Z) as [Heq|Hne].
  - rewrite Heq, Z.mod_same by lia. rewrite <- Heq. selected_index_cases.
  - rewrite Z.mod_small by lia. selected_index_cases.
Qed.

(** X19.  Repeated calls of [next] walk a menu cyclically: on a menu
    whose entries all hold a link or button, after [n] calls of the [next]
    method of the menu, starting with the focus in its entry [z], the focus
    is in entry [(z + n) mod length]; after as many calls as the menu has
    entries it is back in the entry it started in. *)
Theorem next_cycles (d : node) (id : string) (n : nat) :
  MenuParts.entries_have_controls d id →
  ∀ a z,
    Menu.activeIndex d id a = Some z →
    Menu.activeIndex d id (MenuParts.after_next d id n a)
    = Some ((z + Z.of_nat n) mod Z.of_nat (length (Menu.items d id)))%Z
    ∧ (n = length (Menu.items d id) →
       Menu.activeIndex d id (MenuParts.after_next d id n a) = Some z).
Proof.
  intros Hwf.
  assert (Hgen : ∀ m a z,
             Menu.activeIndex d id a = Some z →
             Menu.activeIndex d id (MenuParts.after_next d id m a)
             = Some ((z + Z.of_nat m) mod Z.of_nat (length (Menu.items d id)))%Z).
  { induction m as [|m IH]; intros a z Hactive; simpl MenuParts.after_next.
    - rewrite Hactive. f_equal.
      apply activeIndex_spec in Hactive as (i & item & -> & Hi & _).
      apply lookup_lt_Some in Hi. rewrite Z.mod_small; lia.
    - rewrite (IH _ _ (next_lands d id a z Hwf Hactive)). f_equal.
      rewrite Zplus_mod_idemp_l. f_equal. lia. }
  intros a z Hactive. split; [now apply Hgen|].
  intros ->. rewrite (Hgen _ _ _ Hactive). f_equal.
  apply activeIndex_spec in Hactive as (i & item & -> & Hi & _).
  apply lookup_lt_Some in Hi.
  rewrite <- (Z.mul_1_l (Z.of_nat (length (Menu.items d id)))) at 1.
  rewrite Z.mod_add by lia. apply Z.mod_small. lia.
Qed.

Lemma next_cycles_witness :
  MenuParts.entries_have_controls MenuFixture.menu "spacebears"
  ∧ Menu.activeIndex MenuFixture.menu "spacebears" MenuFixture.about = Some 2%Z
  ∧ Menu.activeIndex MenuFixture.menu "spacebears"
      (MenuParts.after_next MenuFixture.menu "spacebears" 3 MenuFixture.about)
    = Some 2%Z.
Proof.
  split; [exact MenuFixture_controls|]. split; [reflexivity|].
  exact (proj2 (next_cycles MenuFixture.menu "spacebears" 3 MenuFixture_controls
                  MenuFixture.about 2 eq_refl) eq_refl).
Defined.

(** ** The expansion hint *)

(** X20.  Of the [expanded] property only the value "false" matters: two
    groups with the same children whose hints agree on being "false" are
    constructed alike, so the hint "true" is the same as no hint and cannot
    expand an empty group; and no hint changes what is expandable or which
    errors are recorded. *)
Theorem hint_only_false (id1 id2 : string) (hint1 hint2 : option string)
        (children : list TreeGroup.child_type) :
  (attr_is hint1 "false" = attr_is hint2 "false" →
   TreeGroup.constructor (TreeGroup.Props id1 hint1 children)
   = TreeGroup.constructor (TreeGroup.Props id2 hint2 children))
  ∧ TreeGroup.expandable (TreeGroup.constructor (TreeGroup.Props id1 hint1 children))
    = TreeGroup.expandable (TreeGroup.constructor (TreeGroup.Props id2 hint2 children))
  ∧ TreeGroup.error (TreeGroup.constructor (TreeGroup.Props id1 hint1 children))
    = TreeGroup.error (TreeGroup.constructor (TreeGroup.Props id2 hint2 children))
  ∧ (attr_is hint1 "false" = true →
     TreeGroup.expanded (TreeGroup.constructor (TreeGroup.Props id1 hint1 children))
     = false).
Proof.
  unfold TreeGroup.constructor. simpl.
  destruct (TreeGroup.validate 0 children [] 0) as [err items]. simpl.
  repeat split; try reflexivity.
  - now intros ->.
  - now intros ->.
Qed.

Lemma hint_only_false_witness :
  attr_is (Some "true") "false" = attr_is None "false"
  ∧ TreeGroup.constructor (TreeGroup.Props "" (Some "true") [])
    = TreeGroup.constructor (TreeGroup.Props "" None [])
  ∧ TreeGroup.expanded (TreeGroup.constructor (TreeGroup.Props "" (Some "true") []))
    = false.
Proof.
  split; [reflexivity|]. split; [|reflexivity].
  exact (proj1 (hint_only_false "" "" (Some "true") None []) eq_refl).
Defined.
